(** * AXE parsing rules (gPH, headers/axe): terminals and the difference operator

    A shallow embedding of [axe_terminal.h] and of [operator-] from
    [axe_composite_function.h].

    Iterators are random-access positions, modelled as integers ([Z]);
    dereferencing is a function [src : Iterator -> Z] giving the element stored
    at a position (a character code, a token, or, for the binary rules, the
    byte at that position as a value in 0..255).  A range is the pair
    [(i1, i2)]; it is valid when [i1 <= i2].  Counters of type [size_t] are
    [nat].  A variable that a rule writes through a reference is threaded
    explicitly: the rule takes its byte image and returns the new one. *)

From Stdlib Require Import ZArith List Bool Lia String Ascii.
From stdpp Require Import base list.
Import ListNotations.

Open Scope Z_scope.

(** ** Result model *)

Definition Iterator := Z.

Record result := mk_result {
  matched : bool;
  position : Iterator;
  start : Iterator
}.

(** Modelled from the spec: [axe_result.h] (the [result] structure and both
    overloads of [make_result]) is not among the sources.  The spec gives a
    Result the three fields [matched], [position], [start];
    [make_result(matched, position, start)] builds it from its arguments, and
    the [position] of a failed Result is "unchanged from the input, by
    convention equal to the starting position": on failure the Result carries
    the third argument, the position the terminals pass as [i1]. *)
Definition make_result3 (m : bool) (pos st : Iterator) : result :=
  mk_result m (if m then pos else st) st.

(** Modelled from the spec: the two-argument overload; [start] defaults to
    [position] when omitted. *)
Definition make_result (m : bool) (pos : Iterator) : result :=
  mk_result m pos pos.

(** ** Loops

    Every [for] loop of the source is a loop on a small state: [cond] is the
    loop condition, [step] the body followed by the increment.  [fuel] bounds
    the number of iterations; each use passes a bound that the loop cannot
    exceed on a valid range (see the [_fuel] lemmas). *)

Fixpoint for_loop {St : Type} (fuel : nat) (cond : St -> bool) (step : St -> St)
    (s : St) : St :=
  match fuel with
  | O => s
  | S n => if cond s then for_loop n cond step (step s) else s
  end.

(** [i != j] on iterators. *)
Definition neq_it (i j : Iterator) : bool := negb (i =? j).

(** Modelled from the spec: [axe_predicate.h] is not among the sources; the
    identifier rule uses its [is_alpha] ("alphabetic") and [is_alnum]
    ("alphanumeric") classifications, taken here on character codes. *)
Definition is_alpha (c : Z) : bool :=
  ((65 <=? c) && (c <=? 90)) || ((97 <=? c) && (c <=? 122)).

Definition is_num (c : Z) : bool := (48 <=? c) && (c <=? 57).

Definition is_alnum (c : Z) : bool := is_alpha c || is_num c.

(** The dereference function of a buffer laid out from position 0. *)
Definition load (buf : list Z) : Iterator -> Z :=
  fun i => if i <? 0 then 0 else nth (Z.to_nat i) buf 0.

(** The character codes of a text, and the dereference function of a text
    laid out from position 0. *)
Definition codes (s : string) : list Z :=
  map (fun c => Z.of_nat (nat_of_ascii c)) (list_ascii_of_string s).

Definition text (s : string) : Iterator -> Z := load (codes s).

Arguments codes s%_string.
Arguments text s%_string.

(** The elements of [src] at positions [i, i+1, ..., i+n-1]. *)
Fixpoint slice (src : Iterator -> Z) (i : Iterator) (n : nat) : list Z :=
  match n with
  | O => []
  | S k => src i :: slice src (i + 1) k
  end.

(** The value a byte-sized element has in a comparison, after integral
    promotion, given the byte [b] stored at the position: the byte itself for
    an [unsigned char] element, the signed reading of the byte (a byte
    [>= 0x80] is [b - 256]) for a [char] or [signed char] element. *)
Definition promote (signed_elem : bool) (b : Z) : Z :=
  if signed_elem then (b + 128) mod 256 - 128 else b.

Section Terminals.

Variable src : Iterator -> Z.

(** [r_bool_t]: both specialisations evaluate to a boolean [b]. *)
Definition r_bool_t (b : bool) (i1 i2 : Iterator) : result :=
  make_result b i1.

Definition r_empty_t (i1 i2 : Iterator) : result :=
  make_result true i1.

Definition r_char_t (t : Z) (i1 i2 : Iterator) : result :=
  if neq_it i1 i2 then make_result3 (t =? src i1) (i1 + 1) i1
  else make_result false i1.

Definition r_token_t (token_ : Z) (i1 i2 : Iterator) : result :=
  if neq_it i1 i2 then make_result3 (src i1 =? token_) (i1 + 1) i1
  else make_result false i1.

(** [r_bin_t]: [p] is the byte image of [t], read through
    [const unsigned char*], so its entries are in 0..255 and
    [sizeof(T) = length p]; [signed_elem] tells whether the elements of the
    input are signed, which decides the value [*i] has in [p[s] == *i].
    Loop state: [(matched, i, s)]. *)
Definition r_bin_t (signed_elem : bool) (p : list Z) (i1 i2 : Iterator)
    : result :=
  let size := length p in
  let '(m, i, s) :=
    for_loop size
      (fun '(m, i, s) => m && (s <? size)%nat && neq_it i i2)
      (fun '(m, i, s) => (nth s p 0 =? promote signed_elem (src i), i + 1, S s))
      (neq_it i1 i2, i1, O) in
  make_result3 (m && (s =? size)%nat) i i1.

(** [r_str_t<CharT>] over [const CharT*].  [None] is the null pointer;
    [Some l] points to the characters [l] followed by the terminating zero, so
    [str_[s]] is [nth s l 0].  The characters are reached only in the [Some]
    branch, after the null test of the source's guard. *)
Definition r_str_t (str_ : option (list Z)) (i1 i2 : Iterator) : result :=
  match str_ with
  | None => make_result true i1
  | Some l =>
      if nth 0 l 0 =? 0 then make_result true i1
      else
        let '(m, i, s) :=
          for_loop (length l)
            (fun '(m, i, s) => m && negb (nth s l 0 =? 0) && neq_it i i2)
            (fun '(m, i, s) => (nth s l 0 =? src i, i + 1, S s))
            (neq_it i1 i2, i1, O) in
        make_result3 (m && (nth s l 0 =? 0)) i i1
  end.

(** [r_str_t] over [std::basic_string] (the lvalue and the rvalue
    specialisations have the same body). *)
Definition r_str_t_string (str_ : list Z) (i1 i2 : Iterator) : result :=
  match str_ with
  | [] => make_result true i1
  | _ =>
      let len := length str_ in
      let '(m, i, s) :=
        for_loop len
          (fun '(m, i, s) => m && (s <? len)%nat && neq_it i i2)
          (fun '(m, i, s) => (nth s str_ 0 =? src i, i + 1, S s))
          (neq_it i1 i2, i1, O) in
      make_result3 (m && (s =? len)%nat) i i1
  end.

Definition r_pred_t (pred_ : Z -> bool) (i1 i2 : Iterator) : result :=
  if neq_it i1 i2 then make_result3 (pred_ (src i1)) (i1 + 1) i1
  else make_result false i1.

(** [r_predstr_t<Pred, false>]: loop state [in]. *)
Definition r_predstr_t (pred_ : Z -> bool) (i1 i2 : Iterator) : result :=
  let i_n :=
    for_loop (Z.to_nat (i2 - i1))
      (fun i_n => neq_it i_n i2 && pred_ (src i_n))
      (fun i_n => i_n + 1)
      i1 in
  make_result3 (neq_it i_n i1) i_n i1.

(** [r_predstr_t<Pred, true>]: loop state [(in, count)]. *)
Definition r_predstr_t_bounded (pred_ : Z -> bool)
    (min_occurrence_ max_occurrence_ : nat) (i1 i2 : Iterator) : result :=
  let '(i_n, count) :=
    for_loop (Z.to_nat (i2 - i1))
      (fun '(i_n, count) =>
         (count <? max_occurrence_)%nat && neq_it i_n i2 && pred_ (src i_n))
      (fun '(i_n, count) => (i_n + 1, S count))
      (i1, O) in
  make_result3 (min_occurrence_ <=? count)%nat i_n i1.

(** [r_var_t]: [t] is the byte image of the referenced variable before the
    call, [sizeof(T) = length t]; the new image is returned with the result.
    Loop state: [(c, s, i)]. *)
Definition r_var_t (t : list Z) (i1 i2 : Iterator) : result * list Z :=
  let size := length t in
  let '(c, s, i) :=
    for_loop size
      (fun '(c, s, i) => (s <? size)%nat && neq_it i i2)
      (fun '(c, s, i) => (<[s := src i]> c, S s, i + 1))
      (t, O, i1) in
  (make_result (s =? size)%nat i, c).

(** [r_array_t]: [buf_] holds the byte images of the [N = length buf_]
    elements.  Loop state: [(buf_, i, s, matched)]. *)
Definition r_array_t (buf_ : list (list Z)) (i1 i2 : Iterator)
    : result * list (list Z) :=
  let N := length buf_ in
  let '(b, i, s, m) :=
    for_loop N
      (fun '(b, i, s, m) => m && (s <? N)%nat && neq_it i i2)
      (fun '(b, i, s, m) =>
         let '(res, t') := r_var_t (nth s b []) i i2 in
         (<[s := t']> b, position res, S s, matched res))
      (buf_, i1, O, true) in
  (make_result (s =? N)%nat i, b).

(** [r_sequence_t]: the constructor clears the referenced container. *)
Definition r_sequence_t_ctor (buf : list (list Z)) : list (list Z) := [].

(** [r_sequence_t::operator()]: [buf_] is the referenced container before the
    call, [t0] the (indeterminate) image of the local [T t], so that
    [sizeof(T) = length t0].  Loop state: [(buf_, i1, s, matched)]. *)
Definition r_sequence_t (buf_ : list (list Z)) (t0 : list Z)
    (min_occurrence_ max_occurrence_ : nat) (i1 i2 : Iterator)
    : result * list (list Z) :=
  let '(b, i, s, m) :=
    for_loop (Z.to_nat (i2 - i1))
      (fun '(b, i, s, m) => m && neq_it i i2 && (s <? max_occurrence_)%nat)
      (fun '(b, i, s, m) =>
         let '(r, t) := r_var_t t0 i i2 in
         (if matched r then b ++ [t] else b, position r, S s, matched r))
      (buf_, i1, O, true) in
  (make_result (min_occurrence_ <=? length b)%nat i, b).

Definition r_ident_t (i1 i2 : Iterator) : result :=
  let r := r_pred_t is_alpha i1 i2 in
  if matched r then r_predstr_t is_alnum (position r) i2 else r.

Definition r_end_t (i1 i2 : Iterator) : result :=
  make_result (i1 =? i2) i1.

(** [r_advance_t]: [std::distance(i1, i2)] is [i2 - i1]. *)
Definition r_advance_t (offset_ : Z) (i1 i2 : Iterator) : result :=
  let can_advance := offset_ <=? i2 - i1 in
  let i1' := if can_advance then i1 + offset_ else i1 in
  make_result can_advance i1'.

End Terminals.

(** ** The C-string rule with its reads through the pointer made explicit

    [r_str_t<CharT>::operator()] again, statement by statement, where every
    read [str_[s]] goes through [str_read]: a read through the null pointer
    has no value, and the rule then returns no Result ([None]).  The
    conditions read in the order of the source: [!str_ || !str_[0]] reads
    [str_[0]] only when [str_] is not null, [matched && str_[s] && i != i2]
    and [matched && !str_[s]] read [str_[s]] only when [matched] holds. *)

Definition is_null (str_ : option (list Z)) : bool :=
  match str_ with None => true | Some _ => false end.

Definition str_read (str_ : option (list Z)) (s : nat) : option Z :=
  match str_ with None => None | Some l => Some (nth s l 0) end.

(** A loop whose condition and body may have no value.  The condition is
    evaluated once more when the loop is left. *)
Fixpoint for_loop_opt {St : Type} (fuel : nat) (cond : St -> option bool)
    (step : St -> option St) (s : St) : option St :=
  match fuel with
  | O => match cond s with None => None | Some _ => Some s end
  | S n =>
      match cond s with
      | None => None
      | Some false => Some s
      | Some true =>
          match step s with
          | None => None
          | Some s' => for_loop_opt n cond step s'
          end
      end
  end.

Definition r_str_t_checked (src : Iterator -> Z) (str_ : option (list Z))
    (i1 i2 : Iterator) : option result :=
  match (if is_null str_ then Some true
         else match str_read str_ O with
              | None => None
              | Some c => Some (c =? 0)
              end) with
  | None => None
  | Some true => Some (make_result true i1)
  | Some false =>
      match
        for_loop_opt (match str_ with Some l => length l | None => O end)
          (fun st : bool * Iterator * nat =>
             let '(m, i, s) := st in
             if m then
               match str_read str_ s with
               | None => None
               | Some c => Some (negb (c =? 0) && neq_it i i2)
               end
             else Some false)
          (fun st : bool * Iterator * nat =>
             let '(m, i, s) := st in
             match str_read str_ s with
             | None => None
             | Some c => Some (c =? src i, i + 1, S s)
             end)
          (neq_it i1 i2, i1, O)
      with
      | None => None
      | Some (m, i, s) =>
          if m then
            match str_read str_ s with
            | None => None
            | Some c => Some (make_result3 (c =? 0) i i1)
            end
          else Some (make_result3 false i i1)
      end
  end.

(** ** The terminal rules as one family *)

Inductive terminal :=
  | T_bool (b : bool)
  | T_empty
  | T_char (t : Z)
  | T_token (token_ : Z)
  | T_bin (signed_elem : bool) (p : list Z)
  | T_str (str_ : option (list Z))
  | T_str_string (str_ : list Z)
  | T_pred (pred_ : Z -> bool)
  | T_predstr (pred_ : Z -> bool)
  | T_predstr_bounded (pred_ : Z -> bool) (min_occurrence_ max_occurrence_ : nat)
  | T_var (t : list Z)
  | T_array (buf_ : list (list Z))
  | T_sequence (buf_ : list (list Z)) (t0 : list Z)
      (min_occurrence_ max_occurrence_ : nat)
  | T_ident
  | T_end
  | T_advance (offset_ : Z).

(** The Result a terminal returns on [(i1, i2)]. *)
Definition run (src : Iterator -> Z) (t : terminal) (i1 i2 : Iterator) : result :=
  match t with
  | T_bool b => r_bool_t b i1 i2
  | T_empty => r_empty_t i1 i2
  | T_char c => r_char_t src c i1 i2
  | T_token k => r_token_t src k i1 i2
  | T_bin sg p => r_bin_t src sg p i1 i2
  | T_str s => r_str_t src s i1 i2
  | T_str_string s => r_str_t_string src s i1 i2
  | T_pred p => r_pred_t src p i1 i2
  | T_predstr p => r_predstr_t src p i1 i2
  | T_predstr_bounded p mn mx => r_predstr_t_bounded src p mn mx i1 i2
  | T_var t => fst (r_var_t src t i1 i2)
  | T_array b => fst (r_array_t src b i1 i2)
  | T_sequence b t0 mn mx => fst (r_sequence_t src b t0 mn mx i1 i2)
  | T_ident => r_ident_t src i1 i2
  | T_end => r_end_t i1 i2
  | T_advance o => r_advance_t o i1 i2
  end.

(** Terminals whose failed Result reports the position they were given:
    all but the three binary readers, which build their Result with the
    two-argument [make_result] on the position they reached, and the
    identifier rule. *)
Definition restores_position (t : terminal) : bool :=
  match t with
  | T_var _ | T_array _ | T_sequence _ _ _ _ | T_ident => false
  | _ => true
  end.

(** Terminals that build their Result with the two-argument [make_result]
    on the position they stopped at. *)
Definition start_follows_position (t : terminal) : bool :=
  match t with
  | T_var _ | T_array _ | T_sequence _ _ _ _ | T_advance _ => true
  | _ => false
  end.

(** Terminals whose Result carries the position they were given as [start]. *)
Definition start_is_given (t : terminal) : bool :=
  match t with
  | T_var _ | T_array _ | T_sequence _ _ _ _ | T_advance _ | T_ident => false
  | _ => true
  end.

(** ** Composite rules used by the difference operator

    A rule may write to caller-owned storage; [St] is that storage and a rule
    is a state-passing function. *)

Section Composite.

Variable St : Type.

Definition rule := St -> Iterator -> Iterator -> result * St.

(** Modelled from the spec: [axe_composite.h] ([r_not_t]) is not among the
    sources.  NOT(r) succeeds, non-consuming, iff [r] fails; it never advances
    the cursor. *)
Definition r_not_t (r : rule) : rule :=
  fun st i1 i2 =>
    let '(m, st') := r st i1 i2 in
    (make_result (negb (matched m)) i1, st').

(** Modelled from the spec: [axe_composite.h] ([r_and_t]) is not among the
    sources.  AND(r1, r2) matches iff [r1] matches at the start and [r2]
    matches from [r1]'s resulting position; the result position is [r2]'s and
    start is the original start; [r2] is not invoked if [r1] fails; on failure
    the cursor is restored to the rule's own start. *)
Definition r_and_t (r1 r2 : rule) : rule :=
  fun st i1 i2 =>
    let '(a, st1) := r1 st i1 i2 in
    if matched a then
      let '(b, st2) := r2 st1 (position a) i2 in
      (make_result3 (matched b) (if matched b then position b else i1) i1, st2)
    else (make_result3 false i1 i1, st1).

(** [operator-] of [axe_composite_function.h]. *)
Definition operator_minus (r1 r2 : rule) : rule :=
  r_and_t (r_not_t r2) r1.

(** The difference as the spec words it: [r2] is first required to fail at
    [i1], consuming nothing, and then [r1] is matched from [i1]. *)
Definition difference_spec (r1 r2 : rule) : rule :=
  fun st i1 i2 =>
    let '(b, st1) := r2 st i1 i2 in
    if matched b then (make_result3 false i1 i1, st1)
    else
      let '(a, st2) := r1 st1 i1 i2 in
      if matched a then (make_result3 true (position a) i1, st2)
      else (make_result3 false i1 i1, st2).

End Composite.

Arguments r_not_t {St} r.
Arguments r_and_t {St} r1 r2.
Arguments operator_minus {St} r1 r2.
Arguments difference_spec {St} r1 r2.

(** ** Vocabulary of the proofs: loop invariants and read elements *)

(** The state of the copy loop after [s] iterations. *)
Definition var_inv (src : Iterator -> Z) (t : list Z) (i1 i2 : Iterator)
    (st : list Z * nat * Iterator) : Prop :=
  let '(c, s, i) := st in
  (s <= length t)%nat /\ i = i1 + Z.of_nat s /\ i <= i2 /\
  c = slice src i1 s ++ drop s t.

(** Every element of [[i1, i)] satisfies [pred_]. *)
Definition run_of (src : Iterator -> Z) (pred_ : Z -> bool) (i1 i : Iterator)
    : Prop :=
  forall j, i1 <= j < i -> pred_ (src j) = true.

(** [k] consecutive elements of [E] bytes each, read from position [i]. *)
Fixpoint chunks (src : Iterator -> Z) (i : Iterator) (E k : nat)
    : list (list Z) :=
  match k with
  | O => []
  | S k' => slice src i E :: chunks src (i + Z.of_nat E) E k'
  end.

(** The state of the reading loop: [k] elements were appended; either every
    read so far succeeded, or the last one was cut short by the end of the
    range. *)
Definition seq_inv (src : Iterator -> Z) (buf_ : list (list Z)) (E mx : nat)
    (i1 i2 : Iterator) (st : list (list Z) * Iterator * nat * bool) : Prop :=
  let '(b, i, s, m) := st in
  exists k : nat,
    b = buf_ ++ chunks src i1 E k /\ (k <= mx)%nat /\
    i1 + Z.of_nat (k * E) <= i2 /\ i <= i2 /\
    (m = true -> s = k /\ i = i1 + Z.of_nat (k * E)) /\
    (m = false -> i = i2 /\ i2 < i1 + Z.of_nat ((k + 1) * E) /\ (k < mx)%nat).

(** The state of the element loop after [s] iterations over elements of [E]
    bytes: either every read so far succeeded, or the last one was cut short
    by the end of the range. *)
Definition array_inv (E N : nat) (i1 i2 : Iterator)
    (st : list (list Z) * Iterator * nat * bool) : Prop :=
  let '(b, i, s, m) := st in
  length b = N /\ Forall (fun e => length e = E) b /\ (s <= N)%nat /\ i <= i2 /\
  (m = true -> i = i1 + Z.of_nat (s * E)) /\
  (m = false ->
     (1 <= s)%nat /\ i = i2 /\
     i1 + Z.of_nat ((s - 1) * E) < i2 < i1 + Z.of_nat (s * E)).

(** Two inputs hold the same elements at every position of [[i1, i2)]. *)
Definition agree_on (src src' : Iterator -> Z) (i1 i2 : Iterator) : Prop :=
  forall j, i1 <= j < i2 -> src j = src' j.

(** ** Loop reasoning *)

(** An invariant [P] preserved by the body, with a measure [mu] that the body
    decreases and the fuel covers, holds when the loop stops, and the loop
    stops because its condition is false, not because the fuel ran out. *)
Lemma for_loop_sound {St : Type} (P : St -> Prop) (mu : St -> nat)
    (cond : St -> bool) (step : St -> St) :
  (forall s, P s -> cond s = true -> P (step s) /\ (mu (step s) < mu s)%nat) ->
  forall n s, P s -> (mu s <= n)%nat ->
    P (for_loop n cond step s) /\ cond (for_loop n cond step s) = false.
Proof.
  intros Hstep n. induction n as [|n IH]; intros s HP Hmu; simpl.
  - split; [exact HP|].
    destruct (cond s) eqn:Hc; [|reflexivity].
    destruct (Hstep s HP Hc) as [_ Hlt]. lia.
  - destruct (cond s) eqn:Hc.
    + destruct (Hstep s HP Hc) as [HP' Hlt]. apply IH; [exact HP'|lia].
    + split; [exact HP|exact Hc].
Qed.

(** Once the condition is false at the exit, more fuel changes nothing. *)
Lemma for_loop_fuel {St : Type} (cond : St -> bool) (step : St -> St) :
  forall n m s, cond (for_loop n cond step s) = false -> (n <= m)%nat ->
    for_loop m cond step s = for_loop n cond step s.
Proof.
  induction n as [|n IH]; intros m s Hc Hle; simpl in *.
  - destruct m; simpl; [reflexivity|]. rewrite Hc. reflexivity.
  - destruct m as [|m]; [lia|]. simpl.
    destruct (cond s) eqn:E; [|reflexivity].
    apply IH; [exact Hc|lia].
Qed.

Lemma for_loop_enough {St : Type} (P : St -> Prop) (mu : St -> nat)
    (cond : St -> bool) (step : St -> St) :
  (forall s, P s -> cond s = true -> P (step s) /\ (mu (step s) < mu s)%nat) ->
  forall n m s, P s -> (mu s <= n)%nat -> (n <= m)%nat ->
    for_loop m cond step s = for_loop n cond step s.
Proof.
  intros Hstep n m s HP Hmu Hle. apply for_loop_fuel; [|exact Hle].
  now apply (for_loop_sound P mu cond step Hstep n s HP Hmu).
Qed.

(** An invariant alone, when no exit condition is needed. *)
Lemma for_loop_inv {St : Type} (P : St -> Prop) (cond : St -> bool)
    (step : St -> St) :
  (forall s, P s -> cond s = true -> P (step s)) ->
  forall n s, P s -> P (for_loop n cond step s).
Proof.
  intros Hstep n. induction n as [|n IH]; intros s HP; simpl; [exact HP|].
  destruct (cond s) eqn:Hc; [|exact HP]. apply IH. now apply Hstep.
Qed.

Lemma neq_it_true i j : neq_it i j = true <-> i <> j.
Proof. unfold neq_it. rewrite negb_true_iff, Z.eqb_neq. tauto. Qed.

Lemma neq_it_false i j : neq_it i j = false <-> i = j.
Proof. unfold neq_it. rewrite negb_false_iff, Z.eqb_eq. tauto. Qed.

Lemma if_neq_it (i j : Iterator) : (if neq_it i j then i else j) = i.
Proof.
  destruct (neq_it i j) eqn:E; [reflexivity|]. now apply neq_it_false in E.
Qed.

Lemma make_result3_position_in (m : bool) (pos i1 i2 : Iterator) :
  i1 <= pos <= i2 -> i1 <= position (make_result3 m pos i1) <= i2.
Proof. destruct m; simpl; lia. Qed.

Lemma make_result3_failed (m : bool) (pos st : Iterator) :
  matched (make_result3 m pos st) = false ->
  position (make_result3 m pos st) = st.
Proof. destruct m; simpl; congruence. Qed.

Lemma slice_length src i n : length (slice src i n) = n.
Proof. revert i. induction n; intros; simpl; [reflexivity|]. now rewrite IHn. Qed.

Lemma slice_snoc src i n :
  slice src i (S n) = slice src i n ++ [src (i + Z.of_nat n)].
Proof.
  revert i. induction n as [|n IH]; intros i.
  - simpl. now rewrite Z.add_0_r.
  - change (slice src i (S (S n))) with (src i :: slice src (i + 1) (S n)).
    rewrite IH. replace (i + 1 + Z.of_nat n) with (i + Z.of_nat (S n)) by lia.
    reflexivity.
Qed.

(** ** [r_var_t] *)

Lemma var_step src (t : list Z) i1 i2 (c : list Z) (s : nat) (i : Iterator) :
  var_inv src t i1 i2 (c, s, i) ->
  (s <? length t)%nat && neq_it i i2 = true ->
  var_inv src t i1 i2 (<[s := src i]> c, S s, i + 1) /\
  (length t - S s < length t - s)%nat.
Proof.
  unfold var_inv. intros (Hs & Hi & Hle & Hc) Hcond.
  apply andb_true_iff in Hcond as [Hlt Hne].
  apply Nat.ltb_lt in Hlt. apply neq_it_true in Hne.
  split; [|lia]. repeat split; try lia.
  subst c i. rewrite slice_snoc.
  rewrite insert_app_r_alt by (rewrite slice_length; lia).
  rewrite slice_length, Nat.sub_diag.
  destruct (lookup_lt_is_Some_2 t s Hlt) as [x Hx].
  rewrite (drop_S t x s Hx). simpl. now rewrite <- app_assoc.
Qed.

(** What [r_var_t] returns on a valid range: the number of bytes copied is
    the smaller of [sizeof(T)] and the bytes available. *)
Lemma r_var_t_eq src (t : list Z) i1 i2 :
  i1 <= i2 ->
  let k := Nat.min (length t) (Z.to_nat (i2 - i1)) in
  r_var_t src t i1 i2 =
    (make_result (length t <=? Z.to_nat (i2 - i1))%nat (i1 + Z.of_nat k),
     slice src i1 k ++ drop k t).
Proof.
  intros Hr k. unfold r_var_t.
  pose proof (for_loop_sound (var_inv src t i1 i2)
    (fun '(c, s, i) => (length t - s)%nat)
    (fun '(c, s, i) => (s <? length t)%nat && neq_it i i2)
    (fun '(c, s, i) => (<[s := src i]> c, S s, i + 1))) as L.
  destruct (L (fun '(c, s, i) => var_step src t i1 i2 c s i)
              (length t) (t, O, i1)) as [Hinv Hexit].
  { unfold var_inv. simpl. repeat split; lia. }
  { lia. }
  clear L.
  destruct (for_loop _ _ _ _) as [[c s] i].
  destruct Hinv as (Hs & Hi & Hle & Hc).
  apply andb_false_iff in Hexit.
  assert (Hk : s = k).
  { destruct Hexit as [H|H].
    - apply Nat.ltb_ge in H. lia.
    - apply neq_it_false in H. lia. }
  subst s. subst c i. f_equal. unfold make_result. f_equal.
  destruct (Nat.eqb_spec k (length t)); destruct (Nat.leb_spec (length t) (Z.to_nat (i2 - i1)));
    try reflexivity; lia.
Qed.

Lemma r_var_t_fuel src (t : list Z) i1 i2 n :
  i1 <= i2 -> (length t <= n)%nat ->
  for_loop n
    (fun '(c, s, i) => (s <? length t)%nat && neq_it i i2)
    (fun '(c, s, i) => (<[s := src i]> c, S s, i + 1)) (t, O, i1) =
  for_loop (length t)
    (fun '(c, s, i) => (s <? length t)%nat && neq_it i i2)
    (fun '(c, s, i) => (<[s := src i]> c, S s, i + 1)) (t, O, i1).
Proof.
  intros Hr Hle.
  apply (for_loop_enough (var_inv src t i1 i2)
           (fun '(c, s, i) => (length t - s)%nat));
    [| |simpl; lia|exact Hle].
  - intros [[c s] i]. apply var_step.
  - unfold var_inv. simpl. repeat split; lia.
Qed.

(** ** Predicate runs *)

Lemma run_of_extend src pred_ i1 i :
  run_of src pred_ i1 i -> pred_ (src i) = true -> run_of src pred_ i1 (i + 1).
Proof.
  intros H Hi j Hj. destruct (Z.eq_dec j i) as [->|Hne]; [exact Hi|].
  apply H. lia.
Qed.

(** The scanning loop of the unbounded run stops at the end of the maximal
    run, inside the range. *)
Lemma predstr_loop src pred_ i1 i2 :
  i1 <= i2 ->
  let i_n := for_loop (Z.to_nat (i2 - i1))
               (fun i_n => neq_it i_n i2 && pred_ (src i_n))
               (fun i_n => i_n + 1) i1 in
  i1 <= i_n <= i2 /\ run_of src pred_ i1 i_n /\
  (i_n = i2 \/ pred_ (src i_n) = false).
Proof.
  intros Hr.
  destruct (for_loop_sound
    (fun i => i1 <= i <= i2 /\ run_of src pred_ i1 i)
    (fun i => Z.to_nat (i2 - i))
    (fun i_n => neq_it i_n i2 && pred_ (src i_n))
    (fun i_n => i_n + 1)) with (n := Z.to_nat (i2 - i1)) (s := i1)
    as [[Hb Hrun] Hexit].
  - intros i [Hb Hrun] Hc. apply andb_true_iff in Hc as [Hne Hp].
    apply neq_it_true in Hne. split; [split; [lia|]|lia].
    now apply run_of_extend.
  - split; [lia|]. intros j Hj. lia.
  - lia.
  - cbv zeta. split; [exact Hb|split; [exact Hrun|]].
    apply andb_false_iff in Hexit as [H|H]; [left; now apply neq_it_false|now right].
Qed.

(** The scanning loop of the bounded run: [count] elements were consumed,
    all satisfying [pred_], and the loop stopped at the cap, at the end of the
    range, or in front of an element that fails the predicate. *)
Lemma predstr_bounded_loop src pred_ (mx : nat) i1 i2 :
  i1 <= i2 ->
  let '(i_n, count) :=
    for_loop (Z.to_nat (i2 - i1))
      (fun '(i_n, count) => (count <? mx)%nat && neq_it i_n i2 && pred_ (src i_n))
      (fun '(i_n, count) => (i_n + 1, S count)) (i1, O) in
  i_n = i1 + Z.of_nat count /\ i_n <= i2 /\ (count <= mx)%nat /\
  run_of src pred_ i1 i_n /\
  (count = mx \/ i_n = i2 \/ pred_ (src i_n) = false).
Proof.
  intros Hr.
  destruct (for_loop_sound
    (fun '(i, c) => i = i1 + Z.of_nat c /\ i <= i2 /\ (c <= mx)%nat /\
                    run_of src pred_ i1 i)
    (fun '(i, c) => Z.to_nat (i2 - i))
    (fun '(i_n, count) => (count <? mx)%nat && neq_it i_n i2 && pred_ (src i_n))
    (fun '(i_n, count) => (i_n + 1, S count)))
    with (n := Z.to_nat (i2 - i1)) (s := (i1, O)) as [Hinv Hexit].
  - intros [i c] (Hi & Hle & Hc & Hrun) Hcond.
    apply andb_true_iff in Hcond as [Hcond Hp].
    apply andb_true_iff in Hcond as [Hlt Hne].
    apply Nat.ltb_lt in Hlt. apply neq_it_true in Hne.
    split; [|lia]. repeat split; try lia. now apply run_of_extend.
  - repeat split; try lia. intros j Hj. lia.
  - lia.
  - destruct (for_loop _ _ _ _) as [i c].
    destruct Hinv as (Hi & Hle & Hc & Hrun). repeat split; try assumption.
    apply andb_false_iff in Hexit as [Hexit|Hp]; [|now right; right].
    apply andb_false_iff in Hexit as [Hlt|Hne].
    + apply Nat.ltb_ge in Hlt. left. lia.
    + right; left. now apply neq_it_false.
Qed.

(** The unbounded predicate run on a valid range. *)
Lemma r_predstr_t_run src pred_ i1 i2 :
  i1 <= i2 ->
  let r := r_predstr_t src pred_ i1 i2 in
  matched r = neq_it i1 i2 && pred_ (src i1) /\
  i1 <= position r <= i2 /\
  run_of src pred_ i1 (position r) /\
  (position r = i2 \/ pred_ (src (position r)) = false) /\
  (matched r = false -> position r = i1).
Proof.
  intros Hr r. subst r. unfold r_predstr_t.
  pose proof (predstr_loop src pred_ i1 i2 Hr) as H. cbv zeta in H.
  set (i_n := for_loop _ _ _ _) in *. simpl. rewrite if_neq_it.
  destruct H as (Hb & Hrun & Hstop).
  split; [|split; [exact Hb|split; [exact Hrun|split; [exact Hstop|]]]].
  - destruct (neq_it i_n i1) eqn:E.
    + apply neq_it_true in E. symmetry. apply andb_true_iff. split.
      * apply neq_it_true. lia.
      * apply Hrun. lia.
    + apply neq_it_false in E. symmetry. apply andb_false_iff.
      destruct Hstop as [H|H]; [left; apply neq_it_false; lia|right; now rewrite <- E].
  - intros E. now apply neq_it_false in E.
Qed.

Lemma r_predstr_t_fuel (src : Iterator -> Z) (pred_ : Z -> bool) i1 i2 n :
  i1 <= i2 -> (Z.to_nat (i2 - i1) <= n)%nat ->
  for_loop n (fun i_n => neq_it i_n i2 && pred_ (src i_n))
    (fun i_n => i_n + 1) i1 =
  for_loop (Z.to_nat (i2 - i1)) (fun i_n => neq_it i_n i2 && pred_ (src i_n))
    (fun i_n => i_n + 1) i1.
Proof.
  intros Hr Hle.
  apply (for_loop_enough (fun i => i <= i2) (fun i => Z.to_nat (i2 - i)));
    [|exact Hr|lia|exact Hle].
  intros i Hi Hc. apply andb_true_iff in Hc as [Hne _].
  apply neq_it_true in Hne. lia.
Qed.

Lemma r_predstr_t_bounded_fuel (src : Iterator -> Z) (pred_ : Z -> bool)
    (mx : nat) i1 i2 n :
  i1 <= i2 -> (Z.to_nat (i2 - i1) <= n)%nat ->
  for_loop n
    (fun '(i_n, count) => (count <? mx)%nat && neq_it i_n i2 && pred_ (src i_n))
    (fun '(i_n, count) => (i_n + 1, S count)) (i1, O) =
  for_loop (Z.to_nat (i2 - i1))
    (fun '(i_n, count) => (count <? mx)%nat && neq_it i_n i2 && pred_ (src i_n))
    (fun '(i_n, count) => (i_n + 1, S count)) (i1, O).
Proof.
  intros Hr Hle.
  apply (for_loop_enough (fun '(i, c) => i <= i2)
           (fun '(i, c) => Z.to_nat (i2 - i)));
    [|exact Hr|simpl; lia|exact Hle].
  intros [i c] Hi Hc. apply andb_true_iff in Hc as [Hc _].
  apply andb_true_iff in Hc as [_ Hne]. apply neq_it_true in Hne. lia.
Qed.

(** ** The comparing loops of [r_bin_t] and [r_str_t] *)

(** The loops of [r_bin_t] and [r_str_t] advance [i] only while [i != i2]. *)
Lemma compare_loop_bounds src (g : nat -> bool) (p : list Z) n m0 i1 i2 :
  i1 <= i2 ->
  let '(m, i, s) :=
    for_loop n
      (fun '(m, i, s) => m && g s && neq_it i i2)
      (fun '(m, i, s) => (nth s p 0 =? src i, i + 1, S s))
      (m0, i1, O) in
  i1 <= i <= i2.
Proof.
  intros Hr.
  apply (for_loop_inv (fun '(m, i, s) => i1 <= i <= i2)); [|lia].
  intros [[m i] s] Hb Hc.
  apply andb_true_iff in Hc as [_ Hne]. apply neq_it_true in Hne. lia.
Qed.

Lemma compare_loop_fuel src (g : nat -> bool) (p : list Z) (size n : nat)
    m0 i1 i2 :
  (forall s, g s = true -> (s < size)%nat) -> (size <= n)%nat ->
  for_loop n
    (fun '(m, i, s) => m && g s && neq_it i i2)
    (fun '(m, i, s) => (nth s p 0 =? src i, i + 1, S s)) (m0, i1, O) =
  for_loop size
    (fun '(m, i, s) => m && g s && neq_it i i2)
    (fun '(m, i, s) => (nth s p 0 =? src i, i + 1, S s)) (m0, i1, O).
Proof.
  intros Hg Hle.
  apply (for_loop_enough (fun _ => True) (fun '(m, i, s) => (size - s)%nat));
    [|exact I|simpl; lia|exact Hle].
  intros [[m i] s] _ Hc. split; [exact I|].
  apply andb_true_iff in Hc as [Hc _]. apply andb_true_iff in Hc as [_ Hc].
  apply Hg in Hc. lia.
Qed.

Lemma r_bin_t_fuel src sg p i1 i2 n :
  (length p <= n)%nat ->
  for_loop n
    (fun '(m, i, s) => m && (s <? length p)%nat && neq_it i i2)
    (fun '(m, i, s) => (nth s p 0 =? promote sg (src i), i + 1, S s))
    (neq_it i1 i2, i1, O) =
  for_loop (length p)
    (fun '(m, i, s) => m && (s <? length p)%nat && neq_it i i2)
    (fun '(m, i, s) => (nth s p 0 =? promote sg (src i), i + 1, S s))
    (neq_it i1 i2, i1, O).
Proof.
  intros Hle.
  apply (compare_loop_fuel (fun i => promote sg (src i))
           (fun s => (s <? length p)%nat)); [|exact Hle].
  intros s H. now apply Nat.ltb_lt in H.
Qed.

Lemma r_str_t_fuel src (l : list Z) i1 i2 n :
  (length l <= n)%nat ->
  for_loop n
    (fun '(m, i, s) => m && negb (nth s l 0 =? 0) && neq_it i i2)
    (fun '(m, i, s) => (nth s l 0 =? src i, i + 1, S s)) (neq_it i1 i2, i1, O) =
  for_loop (length l)
    (fun '(m, i, s) => m && negb (nth s l 0 =? 0) && neq_it i i2)
    (fun '(m, i, s) => (nth s l 0 =? src i, i + 1, S s)) (neq_it i1 i2, i1, O).
Proof.
  intros Hle.
  apply (compare_loop_fuel src (fun s => negb (nth s l 0 =? 0))); [|exact Hle].
  intros s H. apply negb_true_iff, Z.eqb_neq in H.
  destruct (Nat.lt_ge_cases s (length l)) as [Hlt|Hge]; [exact Hlt|].
  now rewrite (nth_overflow l 0 Hge) in H.
Qed.

(** ** [r_sequence_t] *)

Lemma chunks_length src i E k : length (chunks src i E k) = k.
Proof. revert i. induction k; intros; simpl; [reflexivity|]. now rewrite IHk. Qed.

Lemma chunks_snoc src i E k :
  chunks src i E (S k) =
  chunks src i E k ++ [slice src (i + Z.of_nat (k * E)) E].
Proof.
  revert i. induction k as [|k IH]; intros i.
  - simpl. now rewrite Z.add_0_r.
  - change (chunks src i E (S (S k)))
      with (slice src i E :: chunks src (i + Z.of_nat E) E (S k)).
    rewrite IH.
    replace (i + Z.of_nat E + Z.of_nat (k * E)) with (i + Z.of_nat (S k * E))
      by lia.
    reflexivity.
Qed.

Lemma seq_step src buf_ (t0 : list Z) mx i1 i2
    (b : list (list Z)) (i : Iterator) (s : nat) (m : bool) :
  (0 < length t0)%nat ->
  seq_inv src buf_ (length t0) mx i1 i2 (b, i, s, m) ->
  m && neq_it i i2 && (s <? mx)%nat = true ->
  seq_inv src buf_ (length t0) mx i1 i2
    (let '(r, t) := r_var_t src t0 i i2 in
     (if matched r then b ++ [t] else b, position r, S s, matched r)) /\
  (Z.to_nat (i2 - (let '(r, t) := r_var_t src t0 i i2 in position r)) <
   Z.to_nat (i2 - i))%nat.
Proof.
  intros HE (k & Hb & Hk & Hin & Hle & Ht & _) Hcond.
  apply andb_true_iff in Hcond as [Hcond Hlt].
  apply andb_true_iff in Hcond as [Hm Hne].
  apply Nat.ltb_lt in Hlt. apply neq_it_true in Hne.
  destruct (Ht Hm) as [-> Hi].
  rewrite (r_var_t_eq src t0 i i2 Hle).
  cbn [matched position make_result make_result3].
  destruct (Nat.leb_spec (length t0) (Z.to_nat (i2 - i))) as [Hfit|Hcut].
  - rewrite Nat.min_l by exact Hfit. rewrite drop_all, app_nil_r.
    split; [|lia]. exists (S k). repeat split; try lia; try discriminate.
    rewrite chunks_snoc, app_assoc, <- Hb, Hi. reflexivity.
  - rewrite Nat.min_r by lia.
    split; [|lia]. exists k. repeat split; try lia; try discriminate.
    exact Hb.
Qed.

(** What an invocation of [r_sequence_t] returns on a valid range. *)
Lemma r_sequence_t_eq src buf_ (t0 : list Z) mn mx i1 i2 :
  i1 <= i2 -> (0 < length t0)%nat ->
  exists k : nat,
    (k <= mx)%nat /\ i1 + Z.of_nat (k * length t0) <= i2 /\
    (k = mx \/ i2 < i1 + Z.of_nat ((k + 1) * length t0)) /\
    r_sequence_t src buf_ t0 mn mx i1 i2 =
      (make_result (mn <=? length buf_ + k)%nat
         (if (k <? mx)%nat then i2 else i1 + Z.of_nat (k * length t0)),
       buf_ ++ chunks src i1 (length t0) k).
Proof.
  intros Hr HE. unfold r_sequence_t.
  destruct (for_loop_sound (seq_inv src buf_ (length t0) mx i1 i2)
    (fun '(b, i, s, m) => Z.to_nat (i2 - i))
    (fun '(b, i, s, m) => m && neq_it i i2 && (s <? mx)%nat)
    (fun '(b, i, s, m) =>
       let '(r, t) := r_var_t src t0 i i2 in
       (if matched r then b ++ [t] else b, position r, S s, matched r)))
    with (n := Z.to_nat (i2 - i1)) (s := (buf_, i1, O, true))
    as [Hinv Hexit].
  - intros [[[b i] s] m] Hinv Hc.
    destruct (seq_step src buf_ t0 mx i1 i2 b i s m HE Hinv Hc) as [H1 H2].
    destruct (r_var_t src t0 i i2) as [r t]. split; [exact H1|exact H2].
  - exists O. simpl. rewrite app_nil_r. repeat split; try lia; discriminate.
  - lia.
  - destruct (for_loop _ _ _ _) as [[[b i] s] m].
    destruct Hinv as (k & Hb & Hk & Hin & Hle & Ht & Hf).
    exists k. split; [exact Hk|]. split; [exact Hin|].
    assert (Hlen : length b = (length buf_ + k)%nat).
    { subst b. rewrite length_app, chunks_length. reflexivity. }
    rewrite Hlen, <- Hb.
    destruct m.
    + destruct (Ht eq_refl) as [-> Hi].
      rewrite andb_true_l in Hexit. apply andb_false_iff in Hexit.
      destruct (Nat.ltb_spec k mx) as [Hlt|Hge].
      * destruct Hexit as [H|H]; [|discriminate].
        apply neq_it_false in H. split; [right; lia|]. now rewrite H.
      * split; [left; lia|]. now rewrite Hi.
    + destruct (Hf eq_refl) as (Hi & Hcut & Hlt).
      split; [right; exact Hcut|].
      apply Nat.ltb_lt in Hlt. rewrite Hlt. now rewrite Hi.
Qed.

Lemma r_sequence_t_fuel src buf_ (t0 : list Z) (mx : nat) i1 i2 n :
  i1 <= i2 -> (0 < length t0)%nat -> (Z.to_nat (i2 - i1) <= n)%nat ->
  for_loop n
    (fun '(b, i, s, m) => m && neq_it i i2 && (s <? mx)%nat)
    (fun '(b, i, s, m) =>
       let '(r, t) := r_var_t src t0 i i2 in
       (if matched r then b ++ [t] else b, position r, S s, matched r))
    (buf_, i1, O, true) =
  for_loop (Z.to_nat (i2 - i1))
    (fun '(b, i, s, m) => m && neq_it i i2 && (s <? mx)%nat)
    (fun '(b, i, s, m) =>
       let '(r, t) := r_var_t src t0 i i2 in
       (if matched r then b ++ [t] else b, position r, S s, matched r))
    (buf_, i1, O, true).
Proof.
  intros Hr HE Hle.
  apply (for_loop_enough (seq_inv src buf_ (length t0) mx i1 i2)
           (fun '(b, i, s, m) => Z.to_nat (i2 - i)));
    [| |simpl; lia|exact Hle].
  - intros [[[b i] s] m] Hinv Hc.
    destruct (seq_step src buf_ t0 mx i1 i2 b i s m HE Hinv Hc) as [H1 H2].
    destruct (r_var_t src t0 i i2) as [r t]. split; [exact H1|exact H2].
  - exists O. simpl. rewrite app_nil_r. repeat split; try lia; discriminate.
Qed.

(** ** [r_array_t] *)

Lemma array_step src (E N : nat) i1 i2
    (b : list (list Z)) (i : Iterator) (s : nat) (m : bool) :
  array_inv E N i1 i2 (b, i, s, m) ->
  m && (s <? N)%nat && neq_it i i2 = true ->
  array_inv E N i1 i2
    (let '(res, t') := r_var_t src (nth s b []) i i2 in
     (<[s := t']> b, position res, S s, matched res)) /\
  (N - S s < N - s)%nat.
Proof.
  intros (Hlen & Hall & Hs & Hle & Ht & _) Hcond.
  apply andb_true_iff in Hcond as [Hcond Hne].
  apply andb_true_iff in Hcond as [Hm Hlt].
  apply Nat.ltb_lt in Hlt. apply neq_it_true in Hne.
  specialize (Ht Hm).
  assert (HE : length (nth s b []) = E).
  { destruct (lookup_lt_is_Some_2 b s ltac:(lia)) as [e He].
    rewrite (nth_lookup_Some b s [] e He).
    exact (Forall_lookup_1 _ b s e Hall He). }
  rewrite (r_var_t_eq src (nth s b []) i i2 Hle). rewrite HE.
  cbn [matched position make_result make_result3].
  split; [|lia]. unfold array_inv.
  split; [now rewrite length_insert|].
  split.
  { apply Forall_insert; [exact Hall|].
    rewrite length_app, slice_length, length_drop. lia. }
  split; [lia|]. split; [lia|].
  destruct (Nat.leb_spec E (Z.to_nat (i2 - i))) as [Hfit|Hcut].
  - split; [|discriminate]. intros _. rewrite Nat.min_l by exact Hfit. lia.
  - split; [discriminate|]. intros _. rewrite Nat.min_r by lia.
    replace (S s - 1)%nat with s by lia. lia.
Qed.

(** The array rule over [N >= 1] elements of [E >= 1] bytes succeeds as soon
    as the range holds more than [(N - 1) * E] bytes: a last element that is
    cut short still counts. *)
Lemma r_array_t_matched src (buf_ : list (list Z)) (E : nat) i1 i2 :
  i1 <= i2 -> (0 < E)%nat -> (0 < length buf_)%nat ->
  Forall (fun e => length e = E) buf_ ->
  matched (fst (r_array_t src buf_ i1 i2)) = true <->
  i1 + Z.of_nat ((length buf_ - 1) * E) < i2.
Proof.
  intros Hr HE HN Hall. unfold r_array_t.
  destruct (for_loop_sound (array_inv E (length buf_) i1 i2)
    (fun '(b, i, s, m) => (length buf_ - s)%nat)
    (fun '(b, i, s, m) => m && (s <? length buf_)%nat && neq_it i i2)
    (fun '(b, i, s, m) =>
       let '(res, t') := r_var_t src (nth s b []) i i2 in
       (<[s := t']> b, position res, S s, matched res)))
    with (n := length buf_) (s := (buf_, i1, O, true)) as [Hinv Hexit].
  - intros [[[b i] s] m] Hinv Hc.
    destruct (array_step src E (length buf_) i1 i2 b i s m Hinv Hc) as [H1 H2].
    destruct (r_var_t src (nth s b []) i i2) as [res t'].
    split; [exact H1|exact H2].
  - unfold array_inv. repeat split; try lia; try discriminate. exact Hall.
  - lia.
  - destruct (for_loop _ _ _ _) as [[[b i] s] m].
    destruct Hinv as (Hlen & _ & Hs & Hle & Ht & Hf).
    cbn [fst matched make_result make_result3].
    destruct (Nat.eqb_spec s (length buf_)) as [Heq|Hneq].
    + split; [intros _|reflexivity]. subst s.
      destruct m; [specialize (Ht eq_refl)|destruct (Hf eq_refl) as (_ & _ & H); lia].
      assert ((length buf_ - 1) * E < length buf_ * E)%nat by nia. lia.
    + split; [discriminate|]. intros Hlong. exfalso.
      assert (Hmono : (s * E <= (length buf_ - 1) * E)%nat)
        by (apply Nat.mul_le_mono_r; lia).
      destruct m.
      * specialize (Ht eq_refl). rewrite andb_true_l in Hexit.
        apply andb_false_iff in Hexit as [H|H].
        -- apply Nat.ltb_ge in H. lia.
        -- apply neq_it_false in H. lia.
      * destruct (Hf eq_refl) as (_ & _ & H). lia.
Qed.

Lemma r_array_t_fuel src (buf_ : list (list Z)) i1 i2 n :
  (length buf_ <= n)%nat ->
  for_loop n
    (fun '(b, i, s, m) => m && (s <? length buf_)%nat && neq_it i i2)
    (fun '(b, i, s, m) =>
       let '(res, t') := r_var_t src (nth s b []) i i2 in
       (<[s := t']> b, position res, S s, matched res))
    (buf_, i1, O, true) =
  for_loop (length buf_)
    (fun '(b, i, s, m) => m && (s <? length buf_)%nat && neq_it i i2)
    (fun '(b, i, s, m) =>
       let '(res, t') := r_var_t src (nth s b []) i i2 in
       (<[s := t']> b, position res, S s, matched res))
    (buf_, i1, O, true).
Proof.
  intros Hle.
  apply (for_loop_enough (fun _ => True)
           (fun '(b, i, s, m) => (length buf_ - s)%nat));
    [|exact I|simpl; lia|exact Hle].
  intros [[[b i] s] m] _ Hc. split; [exact I|].
  apply andb_true_iff in Hc as [Hc _]. apply andb_true_iff in Hc as [_ Hc].
  apply Nat.ltb_lt in Hc.
  destruct (r_var_t src (nth s b []) i i2) as [res t']. lia.
Qed.

(** ** Where each terminal stops, and the start it reports *)

Lemma r_bin_t_position src sg p i1 i2 :
  i1 <= i2 -> i1 <= position (r_bin_t src sg p i1 i2) <= i2.
Proof.
  intros Hr. unfold r_bin_t.
  pose proof (compare_loop_bounds (fun i => promote sg (src i))
                (fun s => (s <? length p)%nat) p
                (length p) (neq_it i1 i2) i1 i2 Hr) as H.
  cbv beta in H. destruct (for_loop _ _ _ _) as [[m i] s].
  now apply make_result3_position_in.
Qed.

Lemma r_str_t_position src str_ i1 i2 :
  i1 <= i2 -> i1 <= position (r_str_t src str_ i1 i2) <= i2.
Proof.
  intros Hr. unfold r_str_t. destruct str_ as [l|]; [|simpl; lia].
  destruct (nth 0 l 0 =? 0); [simpl; lia|].
  pose proof (compare_loop_bounds src (fun s => negb (nth s l 0 =? 0)) l
                (length l) (neq_it i1 i2) i1 i2 Hr) as H.
  cbv beta in H. destruct (for_loop _ _ _ _) as [[m i] s].
  now apply make_result3_position_in.
Qed.

Lemma r_str_t_string_position src str_ i1 i2 :
  i1 <= i2 -> i1 <= position (r_str_t_string src str_ i1 i2) <= i2.
Proof.
  intros Hr. unfold r_str_t_string. destruct str_ as [|c l]; [simpl; lia|].
  pose proof (compare_loop_bounds src (fun s => (s <? length (c :: l))%nat)
                (c :: l) (length (c :: l)) (neq_it i1 i2) i1 i2 Hr) as H.
  cbv beta in H. destruct (for_loop _ _ _ _) as [[m i] s].
  now apply make_result3_position_in.
Qed.

Lemma r_var_t_position src t i1 i2 :
  i1 <= i2 -> i1 <= position (fst (r_var_t src t i1 i2)) <= i2.
Proof.
  intros Hr. rewrite (r_var_t_eq src t i1 i2 Hr). simpl. lia.
Qed.

Lemma r_array_t_position src buf_ i1 i2 :
  i1 <= i2 -> i1 <= position (fst (r_array_t src buf_ i1 i2)) <= i2.
Proof.
  intros Hr. unfold r_array_t.
  match goal with |- context [for_loop ?n0 ?c0 ?f0 ?s0] =>
    pose proof (for_loop_inv
      (fun st : list (list Z) * Iterator * nat * bool =>
         let '(b, i, s, m) := st in i1 <= i <= i2) c0 f0) as H;
    specialize (H ltac:(
      intros [[[b i] s] m] Hb Hc;
      apply andb_true_iff in Hc as [_ Hne]; apply neq_it_true in Hne;
      pose proof (r_var_t_position src (nth s b []) i i2 ltac:(lia));
      destruct (r_var_t src (nth s b []) i i2) as [res t']; simpl in *; lia)
      n0 s0 ltac:(simpl; lia));
    destruct (for_loop n0 c0 f0 s0) as [[[b i] k] m]
  end.
  simpl. exact H.
Qed.

Lemma r_sequence_t_position src buf_ t0 mn mx i1 i2 :
  i1 <= i2 -> i1 <= position (fst (r_sequence_t src buf_ t0 mn mx i1 i2)) <= i2.
Proof.
  intros Hr. unfold r_sequence_t.
  match goal with |- context [for_loop ?n0 ?c0 ?f0 ?s0] =>
    pose proof (for_loop_inv
      (fun st : list (list Z) * Iterator * nat * bool =>
         let '(b, i, s, m) := st in i1 <= i <= i2) c0 f0) as H;
    specialize (H ltac:(
      intros [[[b i] s] m] Hb Hc;
      apply andb_true_iff in Hc as [Hc _];
      apply andb_true_iff in Hc as [_ Hne]; apply neq_it_true in Hne;
      pose proof (r_var_t_position src t0 i i2 ltac:(lia));
      destruct (r_var_t src t0 i i2) as [res t']; simpl in *; lia)
      n0 s0 ltac:(simpl; lia));
    destruct (for_loop n0 c0 f0 s0) as [[[b i] k] m]
  end.
  simpl. exact H.
Qed.

Lemma r_predstr_t_position src pred_ i1 i2 :
  i1 <= i2 -> i1 <= position (r_predstr_t src pred_ i1 i2) <= i2.
Proof.
  intros Hr. exact (proj1 (proj2 (r_predstr_t_run src pred_ i1 i2 Hr))).
Qed.

Lemma r_predstr_t_bounded_position src pred_ mn mx i1 i2 :
  i1 <= i2 -> i1 <= position (r_predstr_t_bounded src pred_ mn mx i1 i2) <= i2.
Proof.
  intros Hr. unfold r_predstr_t_bounded.
  pose proof (predstr_bounded_loop src pred_ mx i1 i2 Hr) as H.
  destruct (for_loop _ _ _ _) as [i c].
  apply make_result3_position_in. lia.
Qed.

Lemma r_ident_t_position src i1 i2 :
  i1 <= i2 -> i1 <= position (r_ident_t src i1 i2) <= i2.
Proof.
  intros Hr. unfold r_ident_t, r_pred_t.
  destruct (neq_it i1 i2) eqn:Hne; [|simpl; lia].
  apply neq_it_true in Hne. cbn [matched position make_result3].
  destruct (is_alpha (src i1)); [|simpl; lia].
  pose proof (r_predstr_t_position src is_alnum (i1 + 1) i2 ltac:(lia)). lia.
Qed.

(** Every terminal but the advance rule leaves its position inside the range;
    the advance rule moves by its offset or not at all. *)
Lemma run_position src t i1 i2 :
  i1 <= i2 ->
  match t with
  | T_advance o =>
      position (run src t i1 i2) = (if o <=? i2 - i1 then i1 + o else i1)
  | _ => i1 <= position (run src t i1 i2) <= i2
  end.
Proof.
  intros Hr. destruct t; simpl.
  - lia.
  - lia.
  - unfold r_char_t. destruct (neq_it i1 i2) eqn:E; [|simpl; lia].
    apply neq_it_true in E. apply make_result3_position_in. lia.
  - unfold r_token_t. destruct (neq_it i1 i2) eqn:E; [|simpl; lia].
    apply neq_it_true in E. apply make_result3_position_in. lia.
  - now apply r_bin_t_position.
  - now apply r_str_t_position.
  - now apply r_str_t_string_position.
  - unfold r_pred_t. destruct (neq_it i1 i2) eqn:E; [|simpl; lia].
    apply neq_it_true in E. apply make_result3_position_in. lia.
  - now apply r_predstr_t_position.
  - now apply r_predstr_t_bounded_position.
  - now apply r_var_t_position.
  - now apply r_array_t_position.
  - now apply r_sequence_t_position.
  - now apply r_ident_t_position.
  - lia.
  - reflexivity.
Qed.

Lemma run_start_given src t i1 i2 :
  start_is_given t = true -> start (run src t i1 i2) = i1.
Proof.
  destruct t; simpl; intros Hg; try discriminate; try reflexivity.
  - unfold r_char_t. now destruct (neq_it i1 i2).
  - unfold r_token_t. now destruct (neq_it i1 i2).
  - unfold r_bin_t. now destruct (for_loop _ _ _ _) as [[m i] s].
  - unfold r_str_t. destruct str_ as [l|]; [|reflexivity].
    destruct (nth 0 l 0 =? 0); [reflexivity|].
    now destruct (for_loop _ _ _ _) as [[m i] s].
  - unfold r_str_t_string. destruct str_ as [|c l]; [reflexivity|].
    now destruct (for_loop _ _ _ _) as [[m i] s].
  - unfold r_pred_t. now destruct (neq_it i1 i2).
  - unfold r_predstr_t_bounded. now destruct (for_loop _ _ _ _) as [i c].
Qed.

Lemma run_start_follows src t i1 i2 :
  start_follows_position t = true ->
  start (run src t i1 i2) = position (run src t i1 i2).
Proof.
  destruct t; simpl; intros Hg; try discriminate; try reflexivity.
  - unfold r_var_t. now destruct (for_loop _ _ _ _) as [[c s] i].
  - unfold r_array_t. now destruct (for_loop _ _ _ _) as [[[b i] s] m].
  - unfold r_sequence_t. now destruct (for_loop _ _ _ _) as [[[b i] s] m].
Qed.

(** ** [r_ident_t] *)

(** The identifier rule returns the Result of the alphanumeric run as it is,
    with the start that run was given. *)
Lemma r_ident_t_start src i1 i2 :
  start (r_ident_t src i1 i2) =
  if neq_it i1 i2 && is_alpha (src i1) then i1 + 1 else i1.
Proof.
  unfold r_ident_t, r_pred_t.
  destruct (neq_it i1 i2); simpl; [|reflexivity].
  destruct (is_alpha (src i1)); reflexivity.
Qed.

(** In general the identifier rule fails whenever the alphabetic first
    element is not followed by an alphanumeric one. *)
Lemma r_ident_t_needs_two src i1 i2 :
  i1 < i2 -> is_alpha (src i1) = true ->
  (i1 + 1 = i2 \/ is_alnum (src (i1 + 1)) = false) ->
  matched (r_ident_t src i1 i2) = false.
Proof.
  intros Hr Ha Hnext. unfold r_ident_t, r_pred_t.
  assert (Hne : neq_it i1 i2 = true) by (apply neq_it_true; lia).
  rewrite Hne. cbn [matched position make_result3]. rewrite Ha.
  destruct (r_predstr_t_run src is_alnum (i1 + 1) i2 ltac:(lia))
    as (Hm & _). rewrite Hm. apply andb_false_iff.
  destruct Hnext as [H|H]; [left; apply neq_it_false; exact H|right; exact H].
Qed.

(** With a second alphanumeric element the identifier rule succeeds and stops
    at the end of the alphanumeric run. *)
Lemma r_ident_t_two_or_more src i1 i2 :
  i1 + 1 < i2 -> is_alpha (src i1) = true -> is_alnum (src (i1 + 1)) = true ->
  let r := r_ident_t src i1 i2 in
  matched r = true /\ i1 + 1 < position r <= i2 /\
  run_of src is_alnum (i1 + 1) (position r) /\
  (position r = i2 \/ is_alnum (src (position r)) = false).
Proof.
  intros Hr Ha Hn r. subst r. unfold r_ident_t, r_pred_t.
  assert (Hne : neq_it i1 i2 = true) by (apply neq_it_true; lia).
  rewrite Hne. cbn [matched position make_result3]. rewrite Ha.
  destruct (r_predstr_t_run src is_alnum (i1 + 1) i2 ltac:(lia))
    as (Hm & Hb & Hrun & Hstop & _).
  rewrite Hn, andb_true_r in Hm.
  assert (Hne' : neq_it (i1 + 1) i2 = true) by (apply neq_it_true; lia).
  rewrite Hne' in Hm.
  split; [exact Hm|]. split; [|split; [exact Hrun|exact Hstop]].
  split; [|lia].
  destruct (Z.eq_dec (position (r_predstr_t src is_alnum (i1 + 1) i2)) (i1 + 1))
    as [E|E]; [|lia].
  destruct Hstop as [H|H]; [lia|]. rewrite E in H. congruence.
Qed.

(** ** The properties of the specification, C1 to C10 *)

(** C1, as stated, fails: a binary-variable-read of a 4-byte variable on a
    2-byte range reports [matched = false] with its position after the two
    bytes it copied, not at the start of the attempt; so does a
    growable-sequence-read of 1-byte elements with [min_occurrence = 3] on
    the same range, after the two elements it read. *)
Lemma failed_read_moves_position :
  let r := run (load [17; 34]) (T_var [0; 0; 0; 0]) 0 2 in
  let q := run (load [17; 34]) (T_sequence [] [0] 3 5) 0 2 in
  matched r = false /\ position r = 2 /\ position r <> 0 /\
  matched q = false /\ position q = 2 /\ position q <> 0.
Proof. vm_compute. repeat split; discriminate. Qed.

(** C1 (amended): every terminal other than binary-variable-read,
    fixed-array-read, growable-sequence-read and the identifier rule reports
    a failure with [position = i1], the start of the attempt; this holds in
    particular for the binary-pattern rule.  The three binary readers build
    their Result on the position they reached: on a valid range the position
    of any failed Result lies in [[i1, i2]], and a failed binary-variable-read
    reports [i2], after the bytes it copied. *)
Theorem terminal_failure_position src t i1 i2 :
  i1 <= i2 ->
  matched (run src t i1 i2) = false ->
  (restores_position t = true -> position (run src t i1 i2) = i1) /\
  i1 <= position (run src t i1 i2) <= i2 /\
  (forall tv, t = T_var tv -> position (run src t i1 i2) = i2).
Proof.
  intros Hr Hfail.
  assert (Hb : i1 <= position (run src t i1 i2) <= i2).
  { pose proof (run_position src t i1 i2 Hr) as H. destruct t; try exact H.
    simpl in *. unfold r_advance_t in *.
    destruct (offset_ <=? i2 - i1); simpl in *; [discriminate|lia]. }
  split; [|split; [exact Hb|]].
  - destruct t; simpl in *; intros Hp; try discriminate; try reflexivity.
    + unfold r_char_t in *. destruct (neq_it i1 i2); [|reflexivity].
      now apply make_result3_failed.
    + unfold r_token_t in *. destruct (neq_it i1 i2); [|reflexivity].
      now apply make_result3_failed.
    + unfold r_bin_t in *. destruct (for_loop _ _ _ _) as [[m i] s].
      now apply make_result3_failed.
    + unfold r_str_t in *. destruct str_ as [l|]; [|reflexivity].
      destruct (nth 0 l 0 =? 0); [reflexivity|].
      destruct (for_loop _ _ _ _) as [[m i] s].
      now apply make_result3_failed.
    + unfold r_str_t_string in *. destruct str_ as [|c l]; [reflexivity|].
      destruct (for_loop _ _ _ _) as [[m i] s].
      now apply make_result3_failed.
    + unfold r_pred_t in *. destruct (neq_it i1 i2); [|reflexivity].
      now apply make_result3_failed.
    + unfold r_predstr_t in *. now apply make_result3_failed.
    + unfold r_predstr_t_bounded in *. destruct (for_loop _ _ _ _) as [i c].
      now apply make_result3_failed.
    + unfold r_advance_t in *.
      destruct (offset_ <=? i2 - i1); simpl in *; [discriminate|reflexivity].
  - intros tv ->. simpl in *. rewrite (r_var_t_eq src tv i1 i2 Hr) in *.
    simpl in *. apply Nat.leb_gt in Hfail. lia.
Qed.

Lemma terminal_failure_position_witness :
  0 <= 2 /\
  matched (run (load [17; 34]) (T_bin false [17; 35]) 0 2) = false /\
  position (run (load [17; 34]) (T_bin false [17; 35]) 0 2) = 0 /\
  matched (run (load [17; 34]) (T_var [0; 0; 0; 0]) 0 2) = false /\
  position (run (load [17; 34]) (T_var [0; 0; 0; 0]) 0 2) = 2.
Proof.
  assert (Hr : 0 <= 2) by lia.
  assert (Hb : matched (run (load [17; 34]) (T_bin false [17; 35]) 0 2) = false)
    by reflexivity.
  assert (Hf : matched (run (load [17; 34]) (T_var [0; 0; 0; 0]) 0 2) = false)
    by reflexivity.
  split; [exact Hr|]. split; [exact Hb|]. split.
  - exact (proj1
      (terminal_failure_position (load [17; 34]) (T_bin false [17; 35]) 0 2
         Hr Hb) eq_refl).
  - split; [exact Hf|].
    exact (proj2 (proj2
      (terminal_failure_position (load [17; 34]) (T_var [0; 0; 0; 0]) 0 2
         Hr Hf)) [0; 0; 0; 0] eq_refl).
Defined.

(** C2, as stated, fails in each of the three cases it names: a
    binary-variable-read that copied two bytes, the identifier rule on
    "rate=12" and an advance by 3 all report a [start] after the position
    they were given. *)
Lemma start_is_not_the_given_position :
  start (run (load [17; 34]) (T_var [0; 0]) 0 2) = 2 /\
  start (run (text "rate=12") T_ident 0 7) = 1 /\
  start (run (text "rate=12") (T_advance 3) 0 7) = 3.
Proof. vm_compute. repeat split. Qed.

(** C2 (amended): on a valid range, [start] is the position passed in for the
    probe, empty, element-equality, token-equality, binary-pattern,
    string-literal, predicate-single, predicate-run and end-of-input rules;
    for binary-variable-read, fixed-array-read, growable-sequence-read and
    advance-by-offset, built with the two-argument [make_result], [start]
    equals the resulting [position].  For every terminal, on success
    [position] never precedes [start]. *)
Theorem terminal_start src t i1 i2 :
  i1 <= i2 ->
  (start_is_given t = true -> start (run src t i1 i2) = i1) /\
  (start_follows_position t = true ->
     start (run src t i1 i2) = position (run src t i1 i2)) /\
  (matched (run src t i1 i2) = true ->
     start (run src t i1 i2) <= position (run src t i1 i2)).
Proof.
  intros Hr.
  split; [apply run_start_given|]. split; [apply run_start_follows|].
  intros Hm.
  destruct (start_is_given t) eqn:Hg.
  - rewrite (run_start_given src t i1 i2 Hg).
    pose proof (run_position src t i1 i2 Hr) as H.
    destruct t; try discriminate; lia.
  - destruct (start_follows_position t) eqn:Hf.
    + rewrite (run_start_follows src t i1 i2 Hf). lia.
    + destruct t; try discriminate.
      change (run src T_ident i1 i2) with (r_ident_t src i1 i2) in *.
      rewrite r_ident_t_start. revert Hm. unfold r_ident_t, r_pred_t.
      destruct (neq_it i1 i2) eqn:Hne; [|discriminate].
      apply neq_it_true in Hne.
      pose proof (r_predstr_t_position src is_alnum (i1 + 1) i2 ltac:(lia)) as H.
      destruct (is_alpha (src i1)); cbn [matched position make_result3 andb];
        [intros _; lia|discriminate].
Qed.

Lemma terminal_start_witness :
  0 <= 7 /\
  start (run (text "rate=12") (T_predstr_bounded is_alpha 2 3) 0 7) = 0 /\
  start (run (text "rate=12") T_ident 0 7) <=
    position (run (text "rate=12") T_ident 0 7).
Proof.
  assert (Hr : 0 <= 7) by lia.
  split; [exact Hr|]. split.
  - exact (proj1
      (terminal_start (text "rate=12") (T_predstr_bounded is_alpha 2 3) 0 7 Hr)
      eq_refl).
  - exact (proj2 (proj2
      (terminal_start (text "rate=12") T_ident 0 7 Hr)) eq_refl).
Defined.

(** C3, as stated, fails: on an empty range, and on a range whose first
    element fails the predicate, the unbounded predicate run reports
    [matched = false]. *)
Lemma empty_run_does_not_match :
  matched (r_predstr_t (text "rate") is_alpha 0 0) = false /\
  matched (r_predstr_t (text "12") is_alpha 0 2) = false.
Proof. vm_compute. split; reflexivity. Qed.

(** C3 (amended): on a valid range the unbounded predicate run stops at the
    end of the maximal run of elements satisfying the predicate, and succeeds
    iff that run is not empty, that is iff the range is not empty and its
    first element satisfies the predicate; when it fails its position is
    [i1]. *)
Theorem r_predstr_t_maximal_run src pred_ i1 i2 :
  i1 <= i2 ->
  let r := r_predstr_t src pred_ i1 i2 in
  matched r = neq_it i1 i2 && pred_ (src i1) /\
  i1 <= position r <= i2 /\
  run_of src pred_ i1 (position r) /\
  (position r = i2 \/ pred_ (src (position r)) = false) /\
  (matched r = false -> position r = i1).
Proof. intros Hr. exact (r_predstr_t_run src pred_ i1 i2 Hr). Qed.

Lemma r_predstr_t_maximal_run_witness :
  0 <= 7 /\
  matched (r_predstr_t (text "rate=12") is_alpha 0 7) =
    neq_it 0 7 && is_alpha (text "rate=12" 0).
Proof.
  assert (Hr : 0 <= 7) by lia.
  split; [exact Hr|].
  exact (proj1 (r_predstr_t_maximal_run
    (text "rate=12") is_alpha 0 7 Hr)).
Defined.

(** C4: the code fails on a one-letter identifier.  On "x" the first element
    is alphabetic and the identifier rule reports [matched = false]; the same
    happens on "x=1", where the letter is followed by a non-alphanumeric
    element. *)
Theorem r_ident_t_single_letter :
  is_alpha (text "x" 0) = true /\
  r_ident_t (text "x") 0 1 = mk_result false 1 1 /\
  r_ident_t (text "x=1") 0 3 = mk_result false 1 1.
Proof. vm_compute. repeat split. Qed.

(** C5: the code reports success when the input runs out inside the last
    element.  Two 2-byte elements against 3 bytes: the read of the second
    element fails after one byte, and the array rule still returns
    [matched = true], with the array partially filled. *)
Theorem r_array_t_last_element_cut_short :
  matched (fst (r_var_t (load [1; 2; 3]) [0; 0] 2 3)) = false /\
  r_array_t (load [1; 2; 3]) [[0; 0]; [0; 0]] 0 3 =
    (mk_result true 3 3, [[1; 2]; [3; 0]]).
Proof. vm_compute. split; reflexivity. Qed.

(** C6: on a valid range the binary-variable-read of a variable of [N] bytes
    succeeds iff at least [N] bytes remain; on success the variable holds the
    [N] bytes read and the position has advanced by [N]; on failure fewer
    than [N] bytes remained, all of them were copied, and the rest of the
    variable is as before. *)
Theorem r_var_t_copies src (t : list Z) i1 i2 :
  i1 <= i2 ->
  let N := length t in
  let avail := Z.to_nat (i2 - i1) in
  let r := fst (r_var_t src t i1 i2) in
  let t' := snd (r_var_t src t i1 i2) in
  (matched r = true <-> (N <= avail)%nat) /\
  (matched r = true ->
     t' = slice src i1 N /\ position r = i1 + Z.of_nat N) /\
  (matched r = false ->
     (avail < N)%nat /\ t' = slice src i1 avail ++ drop avail t).
Proof.
  intros Hr N avail r t'. subst r t'.
  rewrite (r_var_t_eq src t i1 i2 Hr). fold N avail.
  cbn [fst snd matched position make_result make_result3].
  split; [|split].
  - split; intros H; [now apply Nat.leb_le in H|now apply Nat.leb_le].
  - intros H. apply Nat.leb_le in H.
    rewrite Nat.min_l by exact H. unfold N at 2.
    now rewrite drop_all, app_nil_r.
  - intros H. apply Nat.leb_gt in H.
    rewrite Nat.min_r by lia. split; [exact H|reflexivity].
Qed.

(** The scenario of the spec: a 4-byte field against a 2-byte input. *)
Lemma r_var_t_copies_witness :
  0 <= 2 /\
  matched (fst (r_var_t (load [17; 34]) [9; 9; 9; 9] 0 2)) = false /\
  snd (r_var_t (load [17; 34]) [9; 9; 9; 9] 0 2) = [17; 34; 9; 9].
Proof.
  assert (Hr : 0 <= 2) by lia.
  split; [exact Hr|]. split; [reflexivity|].
  exact (proj2 (proj2 (proj2
    (r_var_t_copies (load [17; 34]) [9; 9; 9; 9] 0 2 Hr)) eq_refl)).
Defined.

(** C7: the code does not clear the target sequence when the rule is
    invoked, only when it is built, and it tests [min_occurrence] on the size
    of the container while it counts [max_occurrence] from zero.  A rule with
    [min_occurrence = max_occurrence = 3] over 1-byte elements, invoked twice
    on the 2-element input [[1; 2]]: the first parse captures two elements
    and fails; the second appends to them, leaves four elements, more than
    [max_occurrence], and succeeds. *)
Theorem second_parse_extends :
  let src := load [1; 2] in
  let b0 := r_sequence_t_ctor [[9]] in
  let r1 := fst (r_sequence_t src b0 [0] 3 3 0 2) in
  let b1 := snd (r_sequence_t src b0 [0] 3 3 0 2) in
  let r2 := fst (r_sequence_t src b1 [0] 3 3 0 2) in
  let b2 := snd (r_sequence_t src b1 [0] 3 3 0 2) in
  b0 = [] /\ b1 = [[1]; [2]] /\ matched r1 = false /\
  b2 = [[1]; [2]; [1]; [2]] /\ b2 <> [[1]; [2]] /\ matched r2 = true.
Proof. vm_compute. repeat split. discriminate. Qed.

(** C8: on a valid range the bounded predicate run consumes [count]
    consecutive elements satisfying the predicate, at most [max]; it stops at
    the cap, at the end of the range or in front of an element that fails the
    predicate; it succeeds iff [count >= min], and then its position is
    [i1 + count] with [count] in [[min, max]]. *)
Theorem r_predstr_t_bounded_count src pred_ (mn mx : nat) i1 i2 :
  i1 <= i2 ->
  let r := r_predstr_t_bounded src pred_ mn mx i1 i2 in
  exists count : nat,
    (count <= mx)%nat /\ i1 + Z.of_nat count <= i2 /\
    run_of src pred_ i1 (i1 + Z.of_nat count) /\
    (count = mx \/ i1 + Z.of_nat count = i2 \/
     pred_ (src (i1 + Z.of_nat count)) = false) /\
    (matched r = true <-> (mn <= count)%nat) /\
    (matched r = true ->
       position r = i1 + Z.of_nat count /\ (mn <= count <= mx)%nat) /\
    (forall j : nat, (j < mn)%nat ->
       i1 + Z.of_nat j = i2 \/ pred_ (src (i1 + Z.of_nat j)) = false ->
       matched r = false).
Proof.
  intros Hr r. subst r. unfold r_predstr_t_bounded.
  pose proof (predstr_bounded_loop src pred_ mx i1 i2 Hr) as H.
  destruct (for_loop _ _ _ _) as [i c].
  destruct H as (Hi & Hle & Hc & Hrun & Hstop). subst i.
  exists c. cbn [matched position make_result3].
  split; [exact Hc|]. split; [exact Hle|]. split; [exact Hrun|].
  split; [exact Hstop|]. split; [|split].
  - split; intros H; [now apply Nat.leb_le in H|now apply Nat.leb_le].
  - intros H. rewrite H. apply Nat.leb_le in H. split; [reflexivity|lia].
  - intros j Hj Hshort. apply Nat.leb_gt.
    destruct (Nat.le_gt_cases c j) as [Hcj|Hcj]; [lia|]. exfalso.
    destruct Hshort as [Hend|Hbad]; [lia|].
    rewrite (Hrun (i1 + Z.of_nat j)) in Hbad by lia. discriminate.
Qed.

Lemma r_predstr_t_bounded_count_witness :
  0 <= 7 /\
  exists count : nat,
    (count <= 3)%nat /\
    (matched (r_predstr_t_bounded (text "rate=12")
                is_alpha 2 3 0 7) = true <-> (2 <= count)%nat).
Proof.
  assert (Hr : 0 <= 7) by lia.
  split; [exact Hr|].
  destruct (r_predstr_t_bounded_count
    (text "rate=12") is_alpha 2 3 0 7 Hr)
    as (count & Hc & _ & _ & _ & Hm & _).
  exists count. split; [exact Hc|exact Hm].
Defined.

(** C9: the rule built by [r1 - r2] returns, on every range and from every
    state of the storage the rules write to, what the spec describes: [r2] is
    tried at [i1] and must fail, consuming nothing, then [r1] is matched from
    [i1]; so the difference matches iff [r2] fails at [i1] and [r1] then
    matches there. *)
Theorem operator_minus_is_difference (St : Type) (r1 r2 : rule St)
    (st : St) i1 i2 :
  operator_minus r1 r2 st i1 i2 = difference_spec r1 r2 st i1 i2 /\
  (matched (fst (operator_minus r1 r2 st i1 i2)) = true <->
   matched (fst (r2 st i1 i2)) = false /\
   matched (fst (r1 (snd (r2 st i1 i2)) i1 i2)) = true) /\
  (matched (fst (operator_minus r1 r2 st i1 i2)) = true ->
   position (fst (operator_minus r1 r2 st i1 i2)) =
     position (fst (r1 (snd (r2 st i1 i2)) i1 i2))).
Proof.
  unfold operator_minus, difference_spec, r_and_t, r_not_t.
  destruct (r2 st i1 i2) as [b st1]. cbn [fst snd].
  destruct (matched b) eqn:Hb; cbn [negb matched position make_result make_result3].
  - split; [reflexivity|]. cbn [fst matched]. split; [|discriminate].
    split; [discriminate|]. intros [H _]. discriminate.
  - destruct (r1 st1 i1 i2) as [a st2]. cbn [fst snd].
    destruct (matched a) eqn:Ha; cbn [fst matched position make_result3].
    + split; [reflexivity|]. split; [|reflexivity]. tauto.
    + split; [reflexivity|]. split; [|discriminate].
      split; [discriminate|]. intros [_ H]. discriminate.
Qed.

(** A loop in which no read fails is the loop without the reads made
    explicit. *)
Lemma for_loop_opt_total {St : Type} (cond : St -> bool) (step : St -> St)
    (condo : St -> option bool) (stepo : St -> option St) :
  (forall s, condo s = Some (cond s)) ->
  (forall s, stepo s = Some (step s)) ->
  forall n s, for_loop_opt n condo stepo s = Some (for_loop n cond step s).
Proof.
  intros Hc Hs n. induction n as [|n IH]; intros s; simpl.
  - now rewrite Hc.
  - rewrite Hc. destruct (cond s); [|reflexivity]. now rewrite Hs.
Qed.

(** Through a pointer that is not null the rule with explicit reads always
    returns a Result, the one [r_str_t] gives. *)
Lemma r_str_t_checked_valid src (l : list Z) i1 i2 :
  r_str_t_checked src (Some l) i1 i2 = Some (r_str_t src (Some l) i1 i2).
Proof.
  unfold r_str_t_checked, r_str_t. cbn [is_null str_read].
  destruct (nth 0 l 0 =? 0); [reflexivity|].
  rewrite (for_loop_opt_total
    (fun '(m, i, s) => m && negb (nth s l 0 =? 0) && neq_it i i2)
    (fun '(m, i, s) => (nth s l 0 =? src i, i + 1, S s))).
  - destruct (for_loop _ _ _ _) as [[m i] s]. now destruct m.
  - intros [[m i] s]. now destruct m.
  - now intros [[m i] s].
Qed.

(** C10: the string-literal rule built from a null pointer returns a Result
    on every range, so it makes no read through the pointer, and that Result
    has [matched = true] and [position = i1]; it is the Result of the rule
    built from the empty literal. *)
Theorem r_str_t_null src i1 i2 :
  r_str_t_checked src None i1 i2 = Some (make_result true i1) /\
  r_str_t_checked src None i1 i2 = r_str_t_checked src (Some []) i1 i2 /\
  r_str_t_checked src None i1 i2 = Some (r_str_t src None i1 i2) /\
  matched (r_str_t src None i1 i2) = true /\
  position (r_str_t src None i1 i2) = i1.
Proof.
  split; [reflexivity|]. split; [|split; [reflexivity|split; reflexivity]].
  now rewrite (r_str_t_checked_valid src [] i1 i2).
Qed.

(** ** Further properties of the terminal rules *)

Lemma nth_slice src i n j :
  (j < n)%nat -> nth j (slice src i n) 0 = src (i + Z.of_nat j).
Proof.
  revert i j. induction n as [|n IH]; intros i j Hj; [lia|].
  destruct j as [|j]; simpl.
  - now rewrite Z.add_0_r.
  - rewrite IH by lia. f_equal. lia.
Qed.

(** The comparing loop of [r_bin_t] on a valid range: it ends with
    [matched] set and [s = sizeof(T)] exactly when the range is not empty,
    holds [sizeof(T)] bytes and these are the bytes of the pattern. *)
Lemma r_bin_t_loop src (p : list Z) i1 i2 :
  i1 <= i2 ->
  let '(m, i, s) :=
    for_loop (length p)
      (fun '(m, i, s) => m && (s <? length p)%nat && neq_it i i2)
      (fun '(m, i, s) => (nth s p 0 =? src i, i + 1, S s))
      (neq_it i1 i2, i1, O) in
  i = i1 + Z.of_nat s /\
  (m && (s =? length p)%nat = true <->
   i1 <> i2 /\ (length p <= Z.to_nat (i2 - i1))%nat /\
   slice src i1 (length p) = p).
Proof.
  intros Hr.
  destruct (for_loop_sound
    (fun '(m, i, s) =>
       (s <= length p)%nat /\ i = i1 + Z.of_nat s /\ i <= i2 /\
       (m = true -> i1 <> i2 /\ take s p = slice src i1 s) /\
       (m = false ->
          i1 = i2 \/
          exists j : nat, (j < length p)%nat /\ i1 + Z.of_nat j < i2 /\
                          nth j p 0 <> src (i1 + Z.of_nat j)))
    (fun '(m, i, s) => (length p - s)%nat)
    (fun '(m, i, s) => m && (s <? length p)%nat && neq_it i i2)
    (fun '(m, i, s) => (nth s p 0 =? src i, i + 1, S s)))
    with (n := length p) (s := (neq_it i1 i2, i1, O)) as [Hinv Hexit].
  - intros [[m i] s] (Hs & Hi & Hle & Ht & _) Hc.
    apply andb_true_iff in Hc as [Hc Hne]. apply andb_true_iff in Hc as [Hm Hlt].
    apply Nat.ltb_lt in Hlt. apply neq_it_true in Hne.
    destruct (Ht Hm) as [Hne12 Hpre].
    split; [|lia]. split; [lia|]. split; [lia|]. split; [lia|]. split.
    + intros H. split; [exact Hne12|]. apply Z.eqb_eq in H.
      destruct (lookup_lt_is_Some_2 p s Hlt) as [x Hx].
      rewrite (take_S_r p s x Hx), slice_snoc, Hpre. do 2 f_equal.
      rewrite (nth_lookup_Some p s 0 x Hx) in H. now subst i.
    + intros H. apply Z.eqb_neq in H. right. exists s.
      split; [exact Hlt|]. split; [lia|]. now subst i.
  - split; [lia|]. split; [lia|]. split; [lia|]. split.
    + intros H. apply neq_it_true in H. split; [exact H|reflexivity].
    + intros H. apply neq_it_false in H. left. exact H.
  - lia.
  - destruct (for_loop _ _ _ _) as [[m i] s].
    destruct Hinv as (Hs & Hi & Hle & Ht & Hf).
    split; [exact Hi|]. split.
    + intros H. apply andb_true_iff in H as [Hm Heq].
      apply Nat.eqb_eq in Heq. subst s.
      destruct (Ht Hm) as [Hne Hpre]. rewrite firstn_all in Hpre.
      repeat split; [exact Hne|lia|now symmetry].
    + intros (Hne & Hfit & Hp).
      assert (Hm : m = true).
      { destruct m; [reflexivity|]. exfalso.
        destruct (Hf eq_refl) as [H|(j & Hj & _ & Hbad)]; [contradiction|].
        apply Hbad. rewrite <- Hp at 1. now apply nth_slice. }
      subst m. rewrite andb_true_l in *. apply Nat.eqb_eq.
      apply andb_false_iff in Hexit as [H|H].
      * apply Nat.ltb_ge in H. lia.
      * apply neq_it_false in H. lia.
Qed.

(** Two loops with the same states agree as long as their conditions and
    bodies agree on the states an invariant allows. *)
Lemma for_loop_ext {St : Type} (P : St -> Prop) (cond1 cond2 : St -> bool)
    (step1 step2 : St -> St) :
  (forall s, P s -> cond1 s = cond2 s) ->
  (forall s, P s -> cond1 s = true -> step1 s = step2 s /\ P (step1 s)) ->
  forall n s, P s -> for_loop n cond1 step1 s = for_loop n cond2 step2 s.
Proof.
  intros Hc Hs n. induction n as [|n IH]; intros s HP; simpl; [reflexivity|].
  rewrite <- (Hc s HP). destruct (cond1 s) eqn:E; [|reflexivity].
  destruct (Hs s HP E) as [Heq HP']. rewrite <- Heq. now apply IH.
Qed.

(** A non-empty [std::string] literal is compared as the binary pattern of
    its characters is on unsigned elements. *)
Lemma r_str_t_string_as_bin src (str_ : list Z) i1 i2 :
  str_ <> [] -> r_str_t_string src str_ i1 i2 = r_bin_t src false str_ i1 i2.
Proof. destruct str_; [congruence|reflexivity]. Qed.

Lemma slice_map (f : Z -> Z) src i n :
  slice (fun j => f (src j)) i n = map f (slice src i n).
Proof.
  revert i. induction n as [|n IH]; intros i; [reflexivity|].
  simpl. now rewrite IH.
Qed.

Lemma map_promote_unsigned (l : list Z) : map (promote false) l = l.
Proof. induction l as [|x l IH]; [reflexivity|]. simpl. now rewrite IH. Qed.

Lemma promote_signed_lt (b : Z) : promote true b < 128.
Proof.
  unfold promote. pose proof (Z.mod_pos_bound (b + 128) 256 ltac:(lia)). lia.
Qed.

(** The binary-pattern rule on a valid range: the elements are compared with
    the value they have after promotion. *)
Lemma r_bin_t_matched src sg (p : list Z) i1 i2 :
  i1 <= i2 ->
  (matched (r_bin_t src sg p i1 i2) = true <->
   i1 <> i2 /\ (length p <= Z.to_nat (i2 - i1))%nat /\
   map (promote sg) (slice src i1 (length p)) = p) /\
  (matched (r_bin_t src sg p i1 i2) = true ->
   position (r_bin_t src sg p i1 i2) = i1 + Z.of_nat (length p)).
Proof.
  intros Hr. unfold r_bin_t.
  pose proof (r_bin_t_loop (fun i => promote sg (src i)) p i1 i2 Hr) as H.
  cbv beta in H. rewrite slice_map in H.
  destruct (for_loop _ _ _ _) as [[m i] s]. destruct H as [Hi Hm].
  cbn [matched position make_result3]. split; [exact Hm|].
  intros H. rewrite H. apply andb_true_iff in H as [_ H].
  apply Nat.eqb_eq in H. now subst s.
Qed.

(** X1: on a valid range the binary-pattern rule succeeds iff the range is
    not empty, holds at least [sizeof(T)] bytes, and its first [sizeof(T)]
    elements, with the value they have after promotion, are the bytes of the
    pattern; the position of a success is [i1 + sizeof(T)].  On unsigned
    elements this is equality of the bytes; on signed elements a pattern
    that has a byte [>= 0x80] never matches. *)
Theorem r_bin_t_matches_image src sg (p : list Z) i1 i2 :
  i1 <= i2 ->
  (matched (r_bin_t src sg p i1 i2) = true <->
   i1 <> i2 /\ (length p <= Z.to_nat (i2 - i1))%nat /\
   map (promote sg) (slice src i1 (length p)) = p) /\
  (matched (r_bin_t src sg p i1 i2) = true ->
   position (r_bin_t src sg p i1 i2) = i1 + Z.of_nat (length p)) /\
  (sg = false ->
   (matched (r_bin_t src sg p i1 i2) = true <->
    i1 <> i2 /\ (length p <= Z.to_nat (i2 - i1))%nat /\
    slice src i1 (length p) = p)) /\
  (sg = true -> Exists (fun b => 128 <= b) p ->
   matched (r_bin_t src sg p i1 i2) = false).
Proof.
  intros Hr. destruct (r_bin_t_matched src sg p i1 i2 Hr) as [Hm Hpos].
  split; [exact Hm|]. split; [exact Hpos|]. split.
  - intros ->. now rewrite map_promote_unsigned in Hm.
  - intros -> Hex. destruct (matched (r_bin_t src true p i1 i2)) eqn:E;
      [|reflexivity].
    exfalso. destruct (proj1 Hm eq_refl) as (_ & _ & Hp).
    rewrite <- Hp in Hex. apply Exists_exists in Hex as (b & Hin & Hb).
    apply list_elem_of_In, in_map_iff in Hin as (x & <- & _).
    pose proof (promote_signed_lt x). lia.
Qed.

Lemma r_bin_t_matches_image_witness :
  0 <= 3 /\
  (matched (r_bin_t (load [1; 2; 3]) false [1; 2] 0 3) = true <->
   0 <> 3 /\ (length [1; 2] <= Z.to_nat (3 - 0))%nat /\
   slice (load [1; 2; 3]) 0 (length [1; 2]) = [1; 2]) /\
  matched (r_bin_t (load [233; 7]) true [233] 0 2) = false.
Proof.
  assert (Hr : 0 <= 3) by lia.
  assert (Hr2 : 0 <= 2) by lia.
  assert (Hb : 128 <= 233) by lia.
  split; [exact Hr|]. split.
  - exact (proj1 (proj2 (proj2
      (r_bin_t_matches_image (load [1; 2; 3]) false [1; 2] 0 3 Hr))) eq_refl).
  - exact (proj2 (proj2 (proj2
      (r_bin_t_matches_image (load [233; 7]) true [233] 0 2 Hr2))) eq_refl
      (Exists_cons_hd (fun b => 128 <= b) 233 [] Hb)).
Defined.

(** X2: on a valid range the string-literal rule over [std::string] succeeds
    iff the literal is empty or the range starts with the characters of the
    literal; the position of a success is [i1] plus the literal's length. *)
Theorem r_str_t_string_matches_literal src (str_ : list Z) i1 i2 :
  i1 <= i2 ->
  (matched (r_str_t_string src str_ i1 i2) = true <->
   str_ = [] \/
   ((length str_ <= Z.to_nat (i2 - i1))%nat /\
    slice src i1 (length str_) = str_)) /\
  (matched (r_str_t_string src str_ i1 i2) = true ->
   position (r_str_t_string src str_ i1 i2) = i1 + Z.of_nat (length str_)).
Proof.
  intros Hr. destruct str_ as [|c l].
  - simpl. split; [split; [now left|reflexivity]|intros _; lia].
  - rewrite (r_str_t_string_as_bin src (c :: l) i1 i2) by discriminate.
    destruct (r_bin_t_matched src false (c :: l) i1 i2 Hr) as [Hm Hpos].
    rewrite map_promote_unsigned in Hm. split; [|exact Hpos].
    rewrite Hm. split.
    + intros (_ & H1 & H2). right. split; assumption.
    + intros [H|[H1 H2]]; [discriminate|].
      split; [|split; assumption]. simpl in H1. lia.
Qed.

Lemma r_str_t_string_matches_literal_witness :
  0 <= 7 /\
  (matched (r_str_t_string (text "rate=12") (codes "rate") 0 7) = true ->
   position (r_str_t_string (text "rate=12") (codes "rate") 0 7) =
     0 + Z.of_nat (length (codes "rate"))).
Proof.
  assert (Hr : 0 <= 7) by lia.
  split; [exact Hr|].
  exact (proj2 (r_str_t_string_matches_literal
                  (text "rate=12") (codes "rate") 0 7 Hr)).
Defined.

(** In a zero-terminated literal whose characters are not zero, [str_[s]] is
    not zero exactly below the length. *)
Lemma nth_nonzero (l : list Z) (s : nat) :
  Forall (fun c => c <> 0) l ->
  negb (nth s l 0 =? 0) = (s <? length l)%nat.
Proof.
  intros Hall. destruct (Nat.ltb_spec s (length l)) as [Hlt|Hge].
  - destruct (lookup_lt_is_Some_2 l s Hlt) as [x Hx].
    rewrite (nth_lookup_Some l s 0 x Hx).
    apply negb_true_iff, Z.eqb_neq. exact (Forall_lookup_1 _ l s x Hall Hx).
  - now rewrite (nth_overflow l 0 Hge).
Qed.

(** X3: for a literal without zero characters, the rule built from the
    zero-terminated C string and the rule built from the [std::string] return
    the same Result on every range. *)
Theorem r_str_t_agrees_with_string src (l : list Z) i1 i2 :
  Forall (fun c => c <> 0) l ->
  r_str_t src (Some l) i1 i2 = r_str_t_string src l i1 i2.
Proof.
  intros Hall. unfold r_str_t, r_str_t_string.
  destruct l as [|c l]; [reflexivity|].
  pose proof (nth_nonzero (c :: l) 0 Hall) as H0.
  apply (f_equal negb) in H0. rewrite negb_involutive in H0.
  rewrite H0. cbn [length Nat.ltb Nat.leb negb].
  set (L := c :: l) in *.
  rewrite (for_loop_ext (fun _ => True)
    (fun '(m, i, s) => m && negb (nth s L 0 =? 0) && neq_it i i2)
    (fun '(m, i, s) => m && (s <? length L)%nat && neq_it i i2)
    (fun '(m, i, s) => (nth s L 0 =? src i, i + 1, S s))
    (fun '(m, i, s) => (nth s L 0 =? src i, i + 1, S s)));
    [| |now intros [[m i] s]|exact I].
  - change (S (length l)) with (length L).
    pose proof (for_loop_inv (fun '(m, i, s) => (s <= length L)%nat)
      (fun '(m, i, s) => m && (s <? length L)%nat && neq_it i i2)
      (fun '(m, i, s) => (nth s L 0 =? src i, i + 1, S s))) as Hinv.
    specialize (Hinv ltac:(
      intros [[m i] s] _ Hc; apply andb_true_iff in Hc as [Hc _];
      apply andb_true_iff in Hc as [_ Hc]; apply Nat.ltb_lt in Hc; lia)
      (length L) (neq_it i1 i2, i1, O) ltac:(simpl; lia)).
    destruct (for_loop _ _ _ _) as [[m i] s].
    f_equal. f_equal.
    pose proof (nth_nonzero L s Hall) as Hs.
    destruct (Nat.eqb_spec s (length L)) as [->|Hne].
    + now rewrite (nth_overflow L 0 (Nat.le_refl _)).
    + assert (Hlt : (s <? length L)%nat = true) by (apply Nat.ltb_lt; lia).
      rewrite Hlt in Hs. now apply negb_true_iff in Hs.
  - intros [[m i] s] _. now rewrite (nth_nonzero L s Hall).
Qed.

Lemma r_str_t_agrees_with_string_witness :
  Forall (fun c => c <> 0) (codes "if") /\
  r_str_t (text "if x") (Some (codes "if")) 0 4 =
  r_str_t_string (text "if x") (codes "if") 0 4.
Proof.
  assert (H : Forall (fun c => c <> 0) (codes "if"))
    by (repeat constructor; discriminate).
  split; [exact H|].
  exact (r_str_t_agrees_with_string (text "if x") (codes "if") 0 4 H).
Defined.

Lemma nth_before_terminator (l rest : list Z) (s : nat) :
  (s <= length l)%nat -> nth s (l ++ 0 :: rest) 0 = nth s l 0.
Proof.
  intros Hs. destruct (Nat.eq_dec s (length l)) as [->|Hne].
  - rewrite app_nth2 by lia. rewrite Nat.sub_diag. simpl.
    now rewrite (nth_overflow l 0 (Nat.le_refl _)).
  - apply app_nth1. lia.
Qed.

(** X4: whatever follows a zero character in the array a C-string literal
    points to is never compared: the rule returns the same Result as the rule
    built from the characters before that zero. *)
Theorem r_str_t_stops_at_terminator src (l rest : list Z) i1 i2 :
  r_str_t src (Some (l ++ 0 :: rest)) i1 i2 = r_str_t src (Some l) i1 i2.
Proof.
  unfold r_str_t. set (L := l ++ 0 :: rest).
  assert (HL : forall s, (s <= length l)%nat -> nth s L 0 = nth s l 0)
    by (intros s Hs; now apply nth_before_terminator).
  rewrite (HL O) by lia. destruct (nth 0 l 0 =? 0); [reflexivity|].
  rewrite (for_loop_ext (fun '(m, i, s) => (s <= length l)%nat)
    (fun '(m, i, s) => m && negb (nth s L 0 =? 0) && neq_it i i2)
    (fun '(m, i, s) => m && negb (nth s l 0 =? 0) && neq_it i i2)
    (fun '(m, i, s) => (nth s L 0 =? src i, i + 1, S s))
    (fun '(m, i, s) => (nth s l 0 =? src i, i + 1, S s))).
  - rewrite (r_str_t_fuel src l i1 i2 (length L))
      by (unfold L; rewrite length_app; lia).
    pose proof (for_loop_inv (fun '(m, i, s) => (s <= length l)%nat)
      (fun '(m, i, s) => m && negb (nth s l 0 =? 0) && neq_it i i2)
      (fun '(m, i, s) => (nth s l 0 =? src i, i + 1, S s))) as Hinv.
    specialize (Hinv ltac:(
      intros [[m i] s] _ Hc; apply andb_true_iff in Hc as [Hc _];
      apply andb_true_iff in Hc as [_ Hc];
      apply negb_true_iff, Z.eqb_neq in Hc;
      destruct (Nat.lt_ge_cases s (length l)) as [Hlt|Hge]; [lia|];
      now rewrite (nth_overflow l 0 Hge) in Hc)
      (length l) (neq_it i1 i2, i1, O) ltac:(simpl; lia)).
    destruct (for_loop _ _ _ _) as [[m i] s]. now rewrite (HL s Hinv).
  - intros [[m i] s] Hs. now rewrite (HL s Hs).
  - intros [[m i] s] Hs Hc. rewrite (HL s Hs). split; [reflexivity|].
    apply andb_true_iff in Hc as [Hc _]. apply andb_true_iff in Hc as [_ Hc].
    rewrite (HL s Hs) in Hc. apply negb_true_iff, Z.eqb_neq in Hc.
    destruct (Nat.lt_ge_cases s (length l)) as [Hlt|Hge]; [lia|].
    now rewrite (nth_overflow l 0 Hge) in Hc.
  - simpl. lia.
Qed.

(** X5: on unsigned elements a one-byte binary pattern, and on any elements
    a one-character [std::string] literal and a token, are matched exactly as
    the element-equality rule matches that element: the rules return the
    same Result on every range. *)
Theorem single_element_rules_coincide src (c : Z) i1 i2 :
  r_bin_t src false [c] i1 i2 = r_char_t src c i1 i2 /\
  r_str_t_string src [c] i1 i2 = r_char_t src c i1 i2 /\
  r_token_t src c i1 i2 = r_char_t src c i1 i2.
Proof.
  assert (H : r_bin_t src false [c] i1 i2 = r_char_t src c i1 i2).
  { unfold r_bin_t, r_char_t, promote. simpl.
    destruct (neq_it i1 i2) eqn:E; simpl; [|reflexivity].
    now rewrite andb_true_r. }
  split; [exact H|]. split.
  - rewrite r_str_t_string_as_bin by discriminate. exact H.
  - unfold r_token_t, r_char_t. now rewrite Z.eqb_sym.
Qed.

(** Two loops on different states that keep a relation between their states
    and agree on their conditions end in related states. *)
Lemma for_loop_sim {S1 S2 : Type} (R : S1 -> S2 -> Prop)
    (cond1 : S1 -> bool) (cond2 : S2 -> bool)
    (step1 : S1 -> S1) (step2 : S2 -> S2) :
  (forall a b, R a b -> cond1 a = cond2 b) ->
  (forall a b, R a b -> cond1 a = true -> R (step1 a) (step2 b)) ->
  forall n a b, R a b ->
    R (for_loop n cond1 step1 a) (for_loop n cond2 step2 b).
Proof.
  intros Hc Hs n. induction n as [|n IH]; intros a b HR; simpl; [exact HR|].
  rewrite <- (Hc a b HR). destruct (cond1 a) eqn:E; [|exact HR].
  apply IH. now apply Hs.
Qed.

(** X6: on a valid range, the bounded predicate run with [min = 1] and a cap
    of at least the length of the range returns the same Result as the
    unbounded predicate run. *)
Theorem r_predstr_t_bounded_without_cap src (pred_ : Z -> bool) (mx : nat)
    i1 i2 :
  i1 <= i2 -> (Z.to_nat (i2 - i1) <= mx)%nat ->
  r_predstr_t_bounded src pred_ 1 mx i1 i2 = r_predstr_t src pred_ i1 i2.
Proof.
  intros Hr Hcap. unfold r_predstr_t_bounded, r_predstr_t.
  match goal with
  | |- context [for_loop ?n0 ?c0 ?f0 (@pair Iterator nat i1 O)] =>
      pose proof (for_loop_sim
        (fun (a : Iterator * nat) (b : Iterator) =>
           fst a = b /\ b = i1 + Z.of_nat (snd a) /\ b <= i2)
        c0 (fun i_n => neq_it i_n i2 && pred_ (src i_n))
        f0 (fun i_n => i_n + 1)) as Hsim;
      specialize (Hsim ltac:(
        intros [i c] b (Hi & Hb & Hle); simpl in *; subst i;
        destruct (neq_it b i2) eqn:E; [|now rewrite andb_false_r];
        apply neq_it_true in E;
        assert (Hlt : (c <? mx)%nat = true) by (apply Nat.ltb_lt; lia);
        now rewrite Hlt));
      specialize (Hsim ltac:(
        intros [i c] b (Hi & Hb & Hle) Hc; simpl in *; subst i;
        apply andb_true_iff in Hc as [Hc _];
        apply andb_true_iff in Hc as [_ Hc];
        apply neq_it_true in Hc; repeat split; lia));
      specialize (Hsim n0 (@pair Iterator nat i1 O) i1 ltac:(simpl; lia));
      destruct (for_loop n0 c0 f0 (@pair Iterator nat i1 O)) as [i c]
  end.
  simpl in Hsim. destruct Hsim as (Hi & Hb & _). rewrite <- Hi in *. clear Hi.
  assert (E : (1 <=? c)%nat = neq_it i i1).
  { destruct c as [|c]; simpl.
    - symmetry. apply neq_it_false. lia.
    - symmetry. apply neq_it_true. lia. }
  now rewrite E.
Qed.

Lemma r_predstr_t_bounded_without_cap_witness :
  0 <= 7 /\ (Z.to_nat (7 - 0) <= 100)%nat /\
  r_predstr_t_bounded (text "rate=12") is_alpha 1 100 0 7 =
  r_predstr_t (text "rate=12") is_alpha 0 7.
Proof.
  assert (Hr : 0 <= 7) by lia.
  assert (Hc : (Z.to_nat (7 - 0) <= 100)%nat) by (simpl; lia).
  split; [exact Hr|]. split; [exact Hc|].
  exact (r_predstr_t_bounded_without_cap (text "rate=12") is_alpha 100 0 7 Hr Hc).
Defined.

(** X7: the unbounded predicate run is maximal: on a valid range, applying
    the same rule again at the position it returned fails and leaves that
    position unchanged. *)
Theorem r_predstr_t_again_fails src (pred_ : Z -> bool) i1 i2 :
  i1 <= i2 ->
  let r := r_predstr_t src pred_ i1 i2 in
  matched (r_predstr_t src pred_ (position r) i2) = false /\
  position (r_predstr_t src pred_ (position r) i2) = position r.
Proof.
  intros Hr r.
  destruct (r_predstr_t_run src pred_ i1 i2 Hr) as (_ & Hb & _ & Hstop & _).
  fold r in Hb, Hstop.
  destruct (r_predstr_t_run src pred_ (position r) i2 ltac:(lia))
    as (Hm & _ & _ & _ & Hpos).
  assert (Hf : matched (r_predstr_t src pred_ (position r) i2) = false).
  { rewrite Hm. apply andb_false_iff.
    destruct Hstop as [H|H]; [left; now apply neq_it_false|now right]. }
  split; [exact Hf|exact (Hpos Hf)].
Qed.

Lemma r_predstr_t_again_fails_witness :
  0 <= 7 /\
  matched (r_predstr_t (text "rate=12") is_alpha
             (position (r_predstr_t (text "rate=12") is_alpha 0 7)) 7) = false.
Proof.
  assert (Hr : 0 <= 7) by lia.
  split; [exact Hr|].
  exact (proj1 (r_predstr_t_again_fails (text "rate=12") is_alpha 0 7 Hr)).
Defined.

(** X8: on a valid range the bounded predicate run succeeds iff
    [min <= min(max, L)], [L] being the number of elements the unbounded run
    consumes from the same position, and a success ends at
    [i1 + min(max, L)]: it takes the first [min(max, L)] elements of the
    maximal run. *)
Theorem r_predstr_t_bounded_takes_prefix src (pred_ : Z -> bool)
    (mn mx : nat) i1 i2 :
  i1 <= i2 ->
  let L := Z.to_nat (position (r_predstr_t src pred_ i1 i2) - i1) in
  let r := r_predstr_t_bounded src pred_ mn mx i1 i2 in
  matched r = (mn <=? Nat.min mx L)%nat /\
  (matched r = true -> position r = i1 + Z.of_nat (Nat.min mx L)).
Proof.
  intros Hr L r. subst r.
  destruct (r_predstr_t_run src pred_ i1 i2 Hr) as (_ & Hb & Hrun & Hstop & _).
  set (p := position (r_predstr_t src pred_ i1 i2)) in *.
  unfold r_predstr_t_bounded.
  pose proof (predstr_bounded_loop src pred_ mx i1 i2 Hr) as H.
  destruct (for_loop _ _ _ _) as [i c].
  destruct H as (Hi & Hle & Hc & Hrunc & Hstopc). subst i.
  cbn [matched position make_result3].
  assert (Hge : i1 + Z.of_nat c <= p).
  { destruct (Z.le_gt_cases (i1 + Z.of_nat c) p) as [H|H]; [exact H|].
    exfalso. destruct Hstop as [Hs|Hs]; [lia|].
    rewrite (Hrunc p) in Hs by lia. discriminate. }
  assert (Hmin : c = Nat.min mx L).
  { unfold L. destruct Hstopc as [H|[H|H]].
    - lia.
    - lia.
    - destruct (Z.eq_dec (i1 + Z.of_nat c) p) as [E|E]; [lia|].
      rewrite (Hrun (i1 + Z.of_nat c)) in H by lia. discriminate. }
  rewrite <- Hmin. split; [reflexivity|]. intros H. now rewrite H.
Qed.

Lemma r_predstr_t_bounded_takes_prefix_witness :
  0 <= 7 /\
  matched (r_predstr_t_bounded (text "rate=12") is_alpha 2 3 0 7) =
    Nat.leb 2
      (Nat.min 3
         (Z.to_nat (position (r_predstr_t (text "rate=12") is_alpha 0 7) - 0))).
Proof.
  assert (Hr : 0 <= 7) by lia.
  split; [exact Hr|].
  exact (proj1 (r_predstr_t_bounded_takes_prefix
                  (text "rate=12") is_alpha 2 3 0 7 Hr)).
Defined.

(** X9: on a valid range the binary-variable-read leaves the variable with
    the size it had, and reading again from the same position into the
    variable just written returns the same Result and the same bytes. *)
Theorem r_var_t_reread src (t : list Z) i1 i2 :
  i1 <= i2 ->
  length (snd (r_var_t src t i1 i2)) = length t /\
  r_var_t src (snd (r_var_t src t i1 i2)) i1 i2 = r_var_t src t i1 i2.
Proof.
  intros Hr. rewrite (r_var_t_eq src t i1 i2 Hr). cbn [snd].
  set (k := Nat.min (length t) (Z.to_nat (i2 - i1))).
  assert (Hlen : length (slice src i1 k ++ drop k t) = length t).
  { rewrite length_app, slice_length, length_drop. lia. }
  split; [exact Hlen|].
  rewrite (r_var_t_eq src _ i1 i2 Hr). rewrite Hlen. fold k.
  f_equal. f_equal.
  now rewrite (drop_app_length' (slice src i1 k) (drop k t) k)
    by (now rewrite slice_length).
Qed.

Lemma r_var_t_reread_witness :
  0 <= 2 /\
  r_var_t (load [17; 34]) (snd (r_var_t (load [17; 34]) [9; 9; 9; 9] 0 2)) 0 2 =
  r_var_t (load [17; 34]) [9; 9; 9; 9] 0 2.
Proof.
  assert (Hr : 0 <= 2) by lia.
  split; [exact Hr|].
  exact (proj2 (r_var_t_reread (load [17; 34]) [9; 9; 9; 9] 0 2 Hr)).
Defined.

(** X10: on unsigned elements reading and comparing round-trip on a valid
    range.  The bytes a successful binary-variable-read stored are matched by
    the binary-pattern rule at the same position, which ends at the same
    position; and where the binary-pattern rule matches a pattern, the
    binary-variable-read of a variable of the same size succeeds and stores
    exactly that pattern. *)
Theorem r_var_t_r_bin_t_round_trip src (t p : list Z) i1 i2 :
  i1 <= i2 ->
  ((0 < length t)%nat ->
   matched (fst (r_var_t src t i1 i2)) = true ->
   matched (r_bin_t src false (snd (r_var_t src t i1 i2)) i1 i2) = true /\
   position (r_bin_t src false (snd (r_var_t src t i1 i2)) i1 i2) =
     position (fst (r_var_t src t i1 i2))) /\
  (length t = length p ->
   matched (r_bin_t src false p i1 i2) = true ->
   r_var_t src t i1 i2 =
     (make_result true (position (r_bin_t src false p i1 i2)), p)).
Proof.
  intros Hr. split.
  - intros Hpos. rewrite (r_var_t_eq src t i1 i2 Hr).
    cbn [fst snd matched position make_result].
    intros Hfit. apply Nat.leb_le in Hfit.
    rewrite Nat.min_l by exact Hfit. rewrite drop_all, app_nil_r.
    destruct (r_bin_t_matched src false (slice src i1 (length t)) i1 i2 Hr)
      as [Hm Hp].
    rewrite map_promote_unsigned, slice_length in *.
    assert (Hok : matched (r_bin_t src false (slice src i1 (length t)) i1 i2)
                  = true).
    { apply Hm. repeat split; [lia|exact Hfit]. }
    split; [exact Hok|exact (Hp Hok)].
  - intros Hlen Hm.
    destruct (r_bin_t_matched src false p i1 i2 Hr) as [Hiff Hp].
    rewrite map_promote_unsigned in Hiff.
    destruct (proj1 Hiff Hm) as (_ & Hfit & Hslice).
    rewrite (Hp Hm), (r_var_t_eq src t i1 i2 Hr), Hlen.
    rewrite Nat.min_l by exact Hfit.
    rewrite (drop_ge t (length p)) by lia. rewrite app_nil_r, Hslice.
    now rewrite (proj2 (Nat.leb_le _ _) Hfit).
Qed.

Lemma r_var_t_r_bin_t_round_trip_witness :
  0 <= 3 /\
  matched (r_bin_t (load [1; 2; 3]) false
             (snd (r_var_t (load [1; 2; 3]) [0; 0] 0 3)) 0 3) = true /\
  r_var_t (load [1; 2; 3]) [0; 0] 0 3 =
    (make_result true (position (r_bin_t (load [1; 2; 3]) false [1; 2] 0 3)),
     [1; 2]).
Proof.
  assert (Hr : 0 <= 3) by lia.
  split; [exact Hr|]. split.
  - exact (proj1 (proj1
      (r_var_t_r_bin_t_round_trip (load [1; 2; 3]) [0; 0] [1; 2] 0 3 Hr)
      ltac:(simpl; lia) eq_refl)).
  - exact (proj2
      (r_var_t_r_bin_t_round_trip (load [1; 2; 3]) [0; 0] [1; 2] 0 3 Hr)
      eq_refl eq_refl).
Defined.

(** The element loop of [r_array_t] on a valid range, for an array whose
    elements all have [E] bytes: the final state satisfies the invariant, the
    elements read so far are consecutive chunks of the input in front of the
    untouched rest of the array, and the loop condition is false. *)
Lemma r_array_t_exit src (buf_ : list (list Z)) (E : nat) i1 i2 :
  i1 <= i2 -> Forall (fun e => length e = E) buf_ ->
  let '(b, i, s, m) :=
    for_loop (length buf_)
      (fun '(b, i, s, m) => m && (s <? length buf_)%nat && neq_it i i2)
      (fun '(b, i, s, m) =>
         let '(res, t') := r_var_t src (nth s b []) i i2 in
         (<[s := t']> b, position res, S s, matched res))
      (buf_, i1, O, true) in
  array_inv E (length buf_) i1 i2 (b, i, s, m) /\
  (m = true -> b = chunks src i1 E s ++ drop s buf_) /\
  m && (s <? length buf_)%nat && neq_it i i2 = false.
Proof.
  intros Hr Hall.
  destruct (for_loop_sound
    (fun st : list (list Z) * Iterator * nat * bool =>
       array_inv E (length buf_) i1 i2 st /\
       (let '(b, i, s, m) := st in
        m = true -> b = chunks src i1 E s ++ drop s buf_))
    (fun '(b, i, s, m) => (length buf_ - s)%nat)
    (fun '(b, i, s, m) => m && (s <? length buf_)%nat && neq_it i i2)
    (fun '(b, i, s, m) =>
       let '(res, t') := r_var_t src (nth s b []) i i2 in
       (<[s := t']> b, position res, S s, matched res)))
    with (n := length buf_) (s := (buf_, i1, O, true)) as [Hinv Hexit].
  - intros [[[b i] s] m] [Hinv Hcont] Hc.
    destruct (array_step src E (length buf_) i1 i2 b i s m Hinv Hc) as [H1 H2].
    destruct Hinv as (Hlen & Hallb & Hs & Hle & Ht & _).
    apply andb_true_iff in Hc as [Hc Hne].
    apply andb_true_iff in Hc as [Hm Hlt]. apply Nat.ltb_lt in Hlt.
    specialize (Ht Hm). specialize (Hcont Hm).
    assert (HE : length (nth s b []) = E).
    { destruct (lookup_lt_is_Some_2 b s ltac:(lia)) as [e He].
      rewrite (nth_lookup_Some b s [] e He).
      exact (Forall_lookup_1 _ b s e Hallb He). }
    rewrite (r_var_t_eq src (nth s b []) i i2 Hle) in *. rewrite HE in *.
    cbn [matched position make_result make_result3] in *.
    split; [split; [exact H1|]|exact H2].
    intros Hfit. apply Nat.leb_le in Hfit.
    rewrite Nat.min_l by exact Hfit.
    rewrite <- HE at 2. rewrite drop_all, app_nil_r.
    rewrite Hcont at 1.
    rewrite insert_app_r_alt by (rewrite chunks_length; lia).
    rewrite chunks_length, Nat.sub_diag.
    destruct (lookup_lt_is_Some_2 buf_ s Hlt) as [x Hx].
    rewrite (drop_S buf_ x s Hx), chunks_snoc, <- app_assoc, Ht.
    reflexivity.
  - split.
    + unfold array_inv. repeat split; try lia; try discriminate. exact Hall.
    + intros _. now rewrite drop_0.
  - lia.
  - destruct (for_loop _ _ _ _) as [[[b i] s] m].
    destruct Hinv as [Hinv Hcont]. split; [exact Hinv|].
    split; [exact Hcont|exact Hexit].
Qed.

(** The array rule when the range holds every element in full. *)
Lemma r_array_t_full src (buf_ : list (list Z)) (E : nat) i1 i2 :
  i1 <= i2 -> (0 < E)%nat -> Forall (fun e => length e = E) buf_ ->
  i1 + Z.of_nat (length buf_ * E) <= i2 ->
  r_array_t src buf_ i1 i2 =
    (make_result true (i1 + Z.of_nat (length buf_ * E)),
     chunks src i1 E (length buf_)).
Proof.
  intros Hr HE Hall Hfit. unfold r_array_t.
  pose proof (r_array_t_exit src buf_ E i1 i2 Hr Hall) as H.
  destruct (for_loop _ _ _ _) as [[[b i] s] m].
  destruct H as ((Hlen & _ & Hs & Hle & Ht & Hf) & Hcont & Hexit).
  assert (Hmono : (s * E <= length buf_ * E)%nat)
    by (apply Nat.mul_le_mono_r; exact Hs).
  destruct m; [|destruct (Hf eq_refl) as (_ & _ & H); lia].
  specialize (Ht eq_refl). specialize (Hcont eq_refl).
  assert (Hfull : s = length buf_).
  { rewrite andb_true_l in Hexit. apply andb_false_iff in Hexit as [H|H].
    - apply Nat.ltb_ge in H. lia.
    - apply neq_it_false in H. nia. }
  subst s. rewrite Nat.eqb_refl, Ht, Hcont.
  now rewrite drop_all, app_nil_r.
Qed.

(** X11: on a valid range that holds at least [N * E] bytes, the
    fixed-array-read of [N] elements of [E >= 1] bytes succeeds, advances by
    [N * E], and fills the array with the [N] consecutive [E]-byte chunks of
    the input. *)
Theorem r_array_t_reads_all src (buf_ : list (list Z)) (E : nat) i1 i2 :
  i1 <= i2 -> (0 < E)%nat -> Forall (fun e => length e = E) buf_ ->
  i1 + Z.of_nat (length buf_ * E) <= i2 ->
  r_array_t src buf_ i1 i2 =
    (make_result true (i1 + Z.of_nat (length buf_ * E)),
     chunks src i1 E (length buf_)).
Proof. exact (r_array_t_full src buf_ E i1 i2). Qed.

Lemma r_array_t_reads_all_witness :
  0 <= 5 /\ (0 < 2)%nat /\
  Forall (fun e => length e = 2%nat) [[0; 0]; [0; 0]] /\
  0 + Z.of_nat (length [[0; 0]; [0; 0]] * 2) <= 5 /\
  r_array_t (load [1; 2; 3; 4; 5]) [[0; 0]; [0; 0]] 0 5 =
    (make_result true (0 + Z.of_nat (length [[0; 0]; [0; 0]] * 2)),
     chunks (load [1; 2; 3; 4; 5]) 0 2 (length [[0; 0]; [0; 0]])).
Proof.
  assert (Hr : 0 <= 5) by lia.
  assert (HE : (0 < 2)%nat) by lia.
  assert (Hall : Forall (fun e => length e = 2%nat) [[0; 0]; [0; 0]])
    by (repeat constructor).
  assert (Hfit : 0 + Z.of_nat (length [[0; 0]; [0; 0]] * 2) <= 5)
    by (simpl; lia).
  split; [exact Hr|]. split; [exact HE|]. split; [exact Hall|].
  split; [exact Hfit|].
  exact (r_array_t_reads_all (load [1; 2; 3; 4; 5]) [[0; 0]; [0; 0]] 2 0 5
           Hr HE Hall Hfit).
Defined.

(** X12: on a valid range the fixed-array-read never changes the shape of
    the array: it returns as many elements as it was given, each of the size
    it had. *)
Theorem r_array_t_keeps_shape src (buf_ : list (list Z)) (E : nat) i1 i2 :
  i1 <= i2 -> Forall (fun e => length e = E) buf_ ->
  length (snd (r_array_t src buf_ i1 i2)) = length buf_ /\
  Forall (fun e => length e = E) (snd (r_array_t src buf_ i1 i2)).
Proof.
  intros Hr Hall. unfold r_array_t.
  pose proof (r_array_t_exit src buf_ E i1 i2 Hr Hall) as H.
  destruct (for_loop _ _ _ _) as [[[b i] s] m].
  destruct H as ((Hlen & Hallb & _) & _). split; assumption.
Qed.

Lemma r_array_t_keeps_shape_witness :
  0 <= 3 /\ Forall (fun e => length e = 2%nat) [[0; 0]; [0; 0]] /\
  length (snd (r_array_t (load [1; 2; 3]) [[0; 0]; [0; 0]] 0 3)) =
    length [[0; 0]; [0; 0]].
Proof.
  assert (Hr : 0 <= 3) by lia.
  assert (Hall : Forall (fun e => length e = 2%nat) [[0; 0]; [0; 0]])
    by (repeat constructor).
  split; [exact Hr|]. split; [exact Hall|].
  exact (proj1 (r_array_t_keeps_shape (load [1; 2; 3]) [[0; 0]; [0; 0]] 2 0 3
                  Hr Hall)).
Defined.

(** X13: on a valid range the fixed-array-read of [N] elements of [E] bytes
    consumes the bytes available up to [N * E]: its position is
    [i1 + min(i2 - i1, N * E)], whether it succeeds or not. *)
Theorem r_array_t_consumes src (buf_ : list (list Z)) (E : nat) i1 i2 :
  i1 <= i2 -> Forall (fun e => length e = E) buf_ ->
  position (fst (r_array_t src buf_ i1 i2)) =
    i1 + Z.min (i2 - i1) (Z.of_nat (length buf_ * E)).
Proof.
  intros Hr Hall. unfold r_array_t.
  pose proof (r_array_t_exit src buf_ E i1 i2 Hr Hall) as H.
  destruct (for_loop _ _ _ _) as [[[b i] s] m].
  destruct H as ((Hlen & _ & Hs & Hle & Ht & Hf) & _ & Hexit).
  cbn [fst position make_result make_result3].
  assert (Hmono : (s * E <= length buf_ * E)%nat)
    by (apply Nat.mul_le_mono_r; exact Hs).
  destruct m.
  - specialize (Ht eq_refl). rewrite andb_true_l in Hexit.
    apply andb_false_iff in Hexit as [H|H].
    + apply Nat.ltb_ge in H. assert (s = length buf_) by lia. subst s. lia.
    + apply neq_it_false in H. lia.
  - destruct (Hf eq_refl) as (_ & Hi & Hcut). lia.
Qed.

Lemma r_array_t_consumes_witness :
  0 <= 3 /\ Forall (fun e => length e = 2%nat) [[0; 0]; [0; 0]] /\
  position (fst (r_array_t (load [1; 2; 3]) [[0; 0]; [0; 0]] 0 3)) =
    0 + Z.min (3 - 0) (Z.of_nat (length [[0; 0]; [0; 0]] * 2)).
Proof.
  assert (Hr : 0 <= 3) by lia.
  assert (Hall : Forall (fun e => length e = 2%nat) [[0; 0]; [0; 0]])
    by (repeat constructor).
  split; [exact Hr|]. split; [exact Hall|].
  exact (r_array_t_consumes (load [1; 2; 3]) [[0; 0]; [0; 0]] 2 0 3 Hr Hall).
Defined.

(** X14: on a valid range an invocation of the growable-sequence-read with
    elements of [E >= 1] bytes appends exactly [min(max_occurrence, avail / E)]
    elements, [avail] being the bytes in the range; it consumes the whole
    range, a trailing incomplete element included, unless it stopped at the
    cap, where its position is just after the elements read. *)
Theorem r_sequence_t_count src buf_ (t0 : list Z) mn mx i1 i2 :
  i1 <= i2 -> (0 < length t0)%nat ->
  let E := length t0 in
  let k := Nat.min mx (Z.to_nat (i2 - i1) / E) in
  r_sequence_t src buf_ t0 mn mx i1 i2 =
    (make_result (mn <=? length buf_ + k)%nat
       (if (k <? mx)%nat then i2 else i1 + Z.of_nat (k * E)),
     buf_ ++ chunks src i1 E k).
Proof.
  intros Hr HE E k.
  destruct (r_sequence_t_eq src buf_ t0 mn mx i1 i2 Hr HE)
    as (k0 & Hk & Hin & Hmax & Heq).
  fold E in Hin, Hmax, Heq.
  assert (Hk0 : k0 = k).
  { unfold k. set (avail := Z.to_nat (i2 - i1)).
    assert (Hfit : (E * k0 <= avail)%nat) by (unfold avail; lia).
    assert (Hlow : (k0 <= avail / E)%nat)
      by (apply Nat.div_le_lower_bound; [lia|exact Hfit]).
    destruct Hmax as [->|Hcut]; [lia|].
    assert (Hup : (avail / E < k0 + 1)%nat)
      by (apply Nat.Div0.div_lt_upper_bound; unfold avail; lia).
    lia. }
  rewrite <- Hk0. exact Heq.
Qed.

Lemma r_sequence_t_count_witness :
  0 <= 5 /\ (0 < length [0; 0])%nat /\
  r_sequence_t (load [1; 2; 3; 4; 5]) [] [0; 0] 1 9 0 5 =
    (make_result
       (1 <=? length (@nil (list Z)) +
              Nat.min 9 (Z.to_nat (5 - 0) / length [0; 0]))%nat
       (if (Nat.min 9 (Z.to_nat (5 - 0) / length [0; 0]) <? 9)%nat then 5
        else 0 + Z.of_nat (Nat.min 9 (Z.to_nat (5 - 0) / length [0; 0]) *
                           length [0; 0])),
     [] ++ chunks (load [1; 2; 3; 4; 5]) 0 (length [0; 0])
             (Nat.min 9 (Z.to_nat (5 - 0) / length [0; 0]))).
Proof.
  assert (Hr : 0 <= 5) by lia.
  assert (HE : (0 < length [0; 0])%nat) by (simpl; lia).
  split; [exact Hr|]. split; [exact HE|].
  exact (r_sequence_t_count (load [1; 2; 3; 4; 5]) [] [0; 0] 1 9 0 5 Hr HE).
Defined.

(** X15: where the range holds [N] full elements, reading them into a fixed
    array of [N] elements and reading at most [N] elements into a freshly
    built growable sequence store the same elements and end at the same
    position. *)
Theorem r_sequence_t_agrees_with_r_array_t src (buf_ old : list (list Z))
    (t0 : list Z) mn i1 i2 :
  i1 <= i2 -> (0 < length t0)%nat ->
  Forall (fun e => length e = length t0) buf_ ->
  i1 + Z.of_nat (length buf_ * length t0) <= i2 ->
  snd (r_sequence_t src (r_sequence_t_ctor old) t0 mn (length buf_) i1 i2) =
    snd (r_array_t src buf_ i1 i2) /\
  position
    (fst (r_sequence_t src (r_sequence_t_ctor old) t0 mn (length buf_) i1 i2)) =
    position (fst (r_array_t src buf_ i1 i2)).
Proof.
  intros Hr HE Hall Hfit.
  rewrite (r_array_t_full src buf_ (length t0) i1 i2 Hr HE Hall Hfit).
  destruct (r_sequence_t_eq src (r_sequence_t_ctor old) t0 mn (length buf_)
              i1 i2 Hr HE) as (k & Hk & Hin & Hmax & Heq).
  assert (Hfull : k = length buf_).
  { destruct Hmax as [H|H]; [exact H|].
    destruct (Nat.eq_dec k (length buf_)) as [E|E]; [exact E|]. exfalso.
    assert (((k + 1) * length t0 <= length buf_ * length t0)%nat)
      by (apply Nat.mul_le_mono_r; lia).
    lia. }
  subst k. rewrite Heq, Nat.ltb_irrefl. split; reflexivity.
Qed.

Lemma r_sequence_t_agrees_with_r_array_t_witness :
  0 <= 5 /\ (0 < length [0; 0])%nat /\
  Forall (fun e => length e = length [0; 0]) [[7; 7]; [7; 7]] /\
  0 + Z.of_nat (length [[7; 7]; [7; 7]] * length [0; 0]) <= 5 /\
  snd (r_sequence_t (load [1; 2; 3; 4; 5]) (r_sequence_t_ctor [[9; 9]])
         [0; 0] 1 (length [[7; 7]; [7; 7]]) 0 5) =
    snd (r_array_t (load [1; 2; 3; 4; 5]) [[7; 7]; [7; 7]] 0 5).
Proof.
  assert (Hr : 0 <= 5) by lia.
  assert (HE : (0 < length [0; 0])%nat) by (simpl; lia).
  assert (Hall : Forall (fun e => length e = length [0; 0]) [[7; 7]; [7; 7]])
    by (repeat constructor).
  assert (Hfit : 0 + Z.of_nat (length [[7; 7]; [7; 7]] * length [0; 0]) <= 5)
    by (simpl; lia).
  split; [exact Hr|]. split; [exact HE|]. split; [exact Hall|].
  split; [exact Hfit|].
  exact (proj1 (r_sequence_t_agrees_with_r_array_t (load [1; 2; 3; 4; 5])
                  [[7; 7]; [7; 7]] [[9; 9]] [0; 0] 1 0 5 Hr HE Hall Hfit)).
Defined.

(** X16: on a valid range the identifier rule succeeds iff the range holds at
    least two elements, the first alphabetic and the second alphanumeric; its
    position is then the end of the maximal run of alphanumeric elements that
    follows the first element. *)
Theorem r_ident_t_matched_iff src i1 i2 :
  i1 <= i2 ->
  (matched (r_ident_t src i1 i2) = true <->
   i1 + 1 < i2 /\ is_alpha (src i1) = true /\
   is_alnum (src (i1 + 1)) = true) /\
  (matched (r_ident_t src i1 i2) = true ->
   i1 + 1 < position (r_ident_t src i1 i2) <= i2 /\
   run_of src is_alnum (i1 + 1) (position (r_ident_t src i1 i2)) /\
   (position (r_ident_t src i1 i2) = i2 \/
    is_alnum (src (position (r_ident_t src i1 i2))) = false)).
Proof.
  intros Hr.
  assert (Hiff : matched (r_ident_t src i1 i2) = true <->
                 i1 + 1 < i2 /\ is_alpha (src i1) = true /\
                 is_alnum (src (i1 + 1)) = true).
  { split.
    - intros Hm.
      destruct (Z.eq_dec i1 i2) as [->|Hne].
      { unfold r_ident_t, r_pred_t in Hm.
        assert (E : neq_it i2 i2 = false) by now apply neq_it_false.
        rewrite E in Hm. discriminate. }
      destruct (is_alpha (src i1)) eqn:Ha.
      2:{ unfold r_ident_t, r_pred_t in Hm.
          assert (E : neq_it i1 i2 = true) by now apply neq_it_true.
          rewrite E in Hm. cbn [matched make_result3] in Hm.
          rewrite Ha in Hm. cbn [matched make_result3] in Hm. discriminate. }
      destruct (Z.eq_dec (i1 + 1) i2) as [He|He].
      { rewrite (r_ident_t_needs_two src i1 i2) in Hm;
          [discriminate|lia|exact Ha|now left]. }
      destruct (is_alnum (src (i1 + 1))) eqn:Hn.
      + split; [lia|]. split; reflexivity.
      + rewrite (r_ident_t_needs_two src i1 i2) in Hm;
          [discriminate|lia|exact Ha|now right].
    - intros (Hlt & Ha & Hn).
      exact (proj1 (r_ident_t_two_or_more src i1 i2 Hlt Ha Hn)). }
  split; [exact Hiff|].
  intros Hm. destruct (proj1 Hiff Hm) as (Hlt & Ha & Hn).
  exact (proj2 (r_ident_t_two_or_more src i1 i2 Hlt Ha Hn)).
Qed.

Lemma r_ident_t_matched_iff_witness :
  0 <= 7 /\
  matched (r_ident_t (text "rate=12") 0 7) = true /\
  0 + 1 < position (r_ident_t (text "rate=12") 0 7) <= 7.
Proof.
  assert (Hr : 0 <= 7) by lia.
  split; [exact Hr|]. split; [reflexivity|].
  exact (proj1 (proj2 (r_ident_t_matched_iff (text "rate=12") 0 7 Hr) eq_refl)).
Defined.

(** X17: advancing by [a] and then by [b >= 0] from the position reached is
    advancing by [a + b]: the second form succeeds iff both steps of the
    first do, and then ends at the same position. *)
Theorem r_advance_t_twice (a b : Z) i1 i2 :
  0 <= b ->
  let r1 := r_advance_t a i1 i2 in
  let r2 := r_advance_t b (position r1) i2 in
  matched (r_advance_t (a + b) i1 i2) = matched r1 && matched r2 /\
  (matched (r_advance_t (a + b) i1 i2) = true ->
   position (r_advance_t (a + b) i1 i2) = position r2).
Proof.
  intros Hb r1 r2. subst r1 r2. unfold r_advance_t.
  destruct (Z.leb_spec a (i2 - i1)) as [Ha|Ha];
    cbn [matched position make_result make_result3].
  - destruct (Z.leb_spec (a + b) (i2 - i1)) as [Hab|Hab];
      destruct (Z.leb_spec b (i2 - (i1 + a))) as [Hb2|Hb2];
      cbn [matched position make_result make_result3 andb];
      try lia; split; try reflexivity; intros; try discriminate; lia.
  - destruct (Z.leb_spec (a + b) (i2 - i1)) as [Hab|Hab]; [lia|].
    cbn [matched position make_result make_result3 andb].
    split; [reflexivity|discriminate].
Qed.

Lemma r_advance_t_twice_witness :
  0 <= 3 /\
  matched (r_advance_t (2 + 3) 0 7) =
    matched (r_advance_t 2 0 7) &&
    matched (r_advance_t 3 (position (r_advance_t 2 0 7)) 7).
Proof.
  assert (Hb : 0 <= 3) by lia.
  split; [exact Hb|].
  exact (proj1 (r_advance_t_twice 2 3 0 7 Hb)).
Defined.

(** ** No terminal reads outside its range *)

Lemma slice_ext src src' i n :
  agree_on src src' i (i + Z.of_nat n) -> slice src i n = slice src' i n.
Proof.
  revert i. induction n as [|n IH]; intros i H; [reflexivity|].
  simpl. rewrite (H i) by lia. f_equal. apply IH.
  intros j Hj. apply H. lia.
Qed.

Lemma agree_on_sub src src' i1 i2 j1 j2 :
  agree_on src src' i1 i2 -> i1 <= j1 -> j2 <= i2 -> agree_on src src' j1 j2.
Proof. intros H H1 H2 j Hj. apply H. lia. Qed.

Lemma r_var_t_local src src' (t : list Z) i1 i2 :
  i1 <= i2 -> agree_on src src' i1 i2 ->
  r_var_t src t i1 i2 = r_var_t src' t i1 i2.
Proof.
  intros Hr H. rewrite (r_var_t_eq src t i1 i2 Hr), (r_var_t_eq src' t i1 i2 Hr).
  do 2 f_equal. apply slice_ext. apply (agree_on_sub _ _ _ _ _ _ H); lia.
Qed.

Lemma compare_loop_local src src' (g : nat -> bool) (p : list Z) n m0 i1 i2 :
  i1 <= i2 -> agree_on src src' i1 i2 ->
  for_loop n
    (fun '(m, i, s) => m && g s && neq_it i i2)
    (fun '(m, i, s) => (nth s p 0 =? src i, i + 1, S s)) (m0, i1, O) =
  for_loop n
    (fun '(m, i, s) => m && g s && neq_it i i2)
    (fun '(m, i, s) => (nth s p 0 =? src' i, i + 1, S s)) (m0, i1, O).
Proof.
  intros Hr H.
  apply (for_loop_ext (fun '(m, i, s) => i1 <= i <= i2)); [| |lia].
  - now intros [[m i] s] _.
  - intros [[m i] s] Hb Hc. apply andb_true_iff in Hc as [_ Hne].
    apply neq_it_true in Hne. rewrite (H i) by lia. split; [reflexivity|lia].
Qed.

(** Closes a goal whose two sides differ only in one loop each, given a
    tactic that proves the two loops equal. *)
Ltac loops_equal tac :=
  match goal with
  | |- context [for_loop ?n ?c ?f ?s] =>
      let a := fresh "a" in
      set (a := for_loop n c f s);
      match goal with
      | |- context [for_loop ?n' ?c' ?f' ?s'] =>
          let b := fresh "b" in
          set (b := for_loop n' c' f' s');
          let E := fresh "E" in
          first [ assert (E : a = b) by (subst a b; tac)
                | assert (E : b = a) by (subst a b; tac) ];
          clearbody a b; subst; reflexivity
      end
  end.

Lemma r_bin_t_local src src' sg p i1 i2 :
  i1 <= i2 -> agree_on src src' i1 i2 ->
  r_bin_t src sg p i1 i2 = r_bin_t src' sg p i1 i2.
Proof.
  intros Hr H. unfold r_bin_t.
  assert (Hp : agree_on (fun i => promote sg (src i))
                        (fun i => promote sg (src' i)) i1 i2)
    by (intros j Hj; cbv beta; now rewrite (H j Hj)).
  loops_equal ltac:(
    exact (compare_loop_local (fun i => promote sg (src i))
             (fun i => promote sg (src' i)) (fun s => (s <? length p)%nat) p
             (length p) (neq_it i1 i2) i1 i2 Hr Hp)).
Qed.

Lemma r_str_t_local src src' str_ i1 i2 :
  i1 <= i2 -> agree_on src src' i1 i2 ->
  r_str_t src str_ i1 i2 = r_str_t src' str_ i1 i2.
Proof.
  intros Hr H. unfold r_str_t. destruct str_ as [l|]; [|reflexivity].
  destruct (nth 0 l 0 =? 0); [reflexivity|].
  loops_equal ltac:(
    exact (compare_loop_local src src' (fun s => negb (nth s l 0 =? 0)) l
             (length l) (neq_it i1 i2) i1 i2 Hr H)).
Qed.

Lemma r_str_t_string_local src src' str_ i1 i2 :
  i1 <= i2 -> agree_on src src' i1 i2 ->
  r_str_t_string src str_ i1 i2 = r_str_t_string src' str_ i1 i2.
Proof.
  intros Hr H. destruct str_ as [|c l]; [reflexivity|].
  rewrite !r_str_t_string_as_bin by discriminate. now apply r_bin_t_local.
Qed.

Lemma r_predstr_t_local src src' (pred_ : Z -> bool) i1 i2 :
  i1 <= i2 -> agree_on src src' i1 i2 ->
  r_predstr_t src pred_ i1 i2 = r_predstr_t src' pred_ i1 i2.
Proof.
  intros Hr H. unfold r_predstr_t.
  loops_equal ltac:(
    apply (for_loop_ext (fun i => i1 <= i <= i2)); [| |lia];
    [ intros i Hb; destruct (neq_it i i2) eqn:E; [|reflexivity];
      apply neq_it_true in E;
      first [now rewrite (H i) by lia | now rewrite <- (H i) by lia]
    | intros i Hb Hc; apply andb_true_iff in Hc as [Hne _];
      apply neq_it_true in Hne; split; [reflexivity|lia] ]).
Qed.

Lemma r_predstr_t_bounded_local src src' (pred_ : Z -> bool) mn mx i1 i2 :
  i1 <= i2 -> agree_on src src' i1 i2 ->
  r_predstr_t_bounded src pred_ mn mx i1 i2 =
  r_predstr_t_bounded src' pred_ mn mx i1 i2.
Proof.
  intros Hr H. unfold r_predstr_t_bounded.
  loops_equal ltac:(
    apply (for_loop_ext (fun '(i, c) => i1 <= i <= i2)); [| |simpl; lia];
    [ intros [i c] Hb; destruct (neq_it i i2) eqn:E;
        [|now rewrite !andb_false_r];
      apply neq_it_true in E;
      first [now rewrite (H i) by lia | now rewrite <- (H i) by lia]
    | intros [i c] Hb Hc; apply andb_true_iff in Hc as [Hc _];
      apply andb_true_iff in Hc as [_ Hne];
      apply neq_it_true in Hne; split; [reflexivity|lia] ]).
Qed.

Lemma r_array_t_local src src' (buf_ : list (list Z)) i1 i2 :
  i1 <= i2 -> agree_on src src' i1 i2 ->
  r_array_t src buf_ i1 i2 = r_array_t src' buf_ i1 i2.
Proof.
  intros Hr H. unfold r_array_t.
  loops_equal ltac:(
    apply (for_loop_ext
      (fun st : list (list Z) * Iterator * nat * bool =>
         let '(b, i, s, m) := st in i1 <= i <= i2)); [| |simpl; lia];
    [ now intros [[[b i] s] m] _
    | intros [[[b i] s] m] Hb _; cbn beta iota in Hb;
      pose proof (r_var_t_local src src' (nth s b []) i i2 ltac:(lia)
                    (agree_on_sub src src' i1 i2 i i2 H ltac:(lia) ltac:(lia))) as El;
      pose proof (r_var_t_position src (nth s b []) i i2 ltac:(lia)) as Hp;
      rewrite <- El in *;
      destruct (r_var_t src (nth s b []) i i2) as [res t'];
      split; [reflexivity|simpl in *; lia] ]).
Qed.

Lemma r_sequence_t_local src src' buf_ (t0 : list Z) mn mx i1 i2 :
  i1 <= i2 -> agree_on src src' i1 i2 ->
  r_sequence_t src buf_ t0 mn mx i1 i2 = r_sequence_t src' buf_ t0 mn mx i1 i2.
Proof.
  intros Hr H. unfold r_sequence_t.
  loops_equal ltac:(
    apply (for_loop_ext
      (fun st : list (list Z) * Iterator * nat * bool =>
         let '(b, i, s, m) := st in i1 <= i <= i2)); [| |simpl; lia];
    [ now intros [[[b i] s] m] _
    | intros [[[b i] s] m] Hb _; cbn beta iota in Hb;
      pose proof (r_var_t_local src src' t0 i i2 ltac:(lia)
                    (agree_on_sub src src' i1 i2 i i2 H ltac:(lia) ltac:(lia))) as El;
      pose proof (r_var_t_position src t0 i i2 ltac:(lia)) as Hp;
      rewrite <- El in *;
      destruct (r_var_t src t0 i i2) as [res t'];
      split; [reflexivity|simpl in *; lia] ]).
Qed.

Lemma r_ident_t_local src src' i1 i2 :
  i1 <= i2 -> agree_on src src' i1 i2 ->
  r_ident_t src i1 i2 = r_ident_t src' i1 i2.
Proof.
  intros Hr H. unfold r_ident_t, r_pred_t.
  destruct (neq_it i1 i2) eqn:E; [|reflexivity].
  apply neq_it_true in E. rewrite <- (H i1) by lia.
  cbn [matched position make_result3].
  destruct (is_alpha (src i1)); [|reflexivity].
  apply r_predstr_t_local; [lia|].
  apply (agree_on_sub _ _ _ _ _ _ H); lia.
Qed.

(** X18: no terminal reads outside its range.  On a valid range, two inputs
    that hold the same elements at the positions of [[i1, i2)] give every
    terminal the same Result, and give the binary-variable-read, the
    fixed-array-read and the growable-sequence-read the same stored bytes. *)
Theorem terminals_read_only_the_range src src' i1 i2 :
  i1 <= i2 -> agree_on src src' i1 i2 ->
  (forall t, run src t i1 i2 = run src' t i1 i2) /\
  (forall t, snd (r_var_t src t i1 i2) = snd (r_var_t src' t i1 i2)) /\
  (forall b, snd (r_array_t src b i1 i2) = snd (r_array_t src' b i1 i2)) /\
  (forall b t0 mn mx,
     snd (r_sequence_t src b t0 mn mx i1 i2) =
     snd (r_sequence_t src' b t0 mn mx i1 i2)).
Proof.
  intros Hr H. split; [|split; [|split]].
  - intros t. destruct t; simpl; try reflexivity.
    + unfold r_char_t. destruct (neq_it i1 i2) eqn:E; [|reflexivity].
      apply neq_it_true in E. now rewrite (H i1) by lia.
    + unfold r_token_t. destruct (neq_it i1 i2) eqn:E; [|reflexivity].
      apply neq_it_true in E. now rewrite (H i1) by lia.
    + now apply r_bin_t_local.
    + now apply r_str_t_local.
    + now apply r_str_t_string_local.
    + unfold r_pred_t. destruct (neq_it i1 i2) eqn:E; [|reflexivity].
      apply neq_it_true in E. now rewrite (H i1) by lia.
    + now apply r_predstr_t_local.
    + now apply r_predstr_t_bounded_local.
    + now rewrite (r_var_t_local src src' t i1 i2 Hr H).
    + now rewrite (r_array_t_local src src' buf_ i1 i2 Hr H).
    + now rewrite (r_sequence_t_local src src' buf_ t0 _ _ i1 i2 Hr H).
    + now apply r_ident_t_local.
  - intros t. now rewrite (r_var_t_local src src' t i1 i2 Hr H).
  - intros b. now rewrite (r_array_t_local src src' b i1 i2 Hr H).
  - intros b t0 mn mx.
    now rewrite (r_sequence_t_local src src' b t0 mn mx i1 i2 Hr H).
Qed.

Lemma terminals_read_only_the_range_witness :
  0 <= 4 /\ agree_on (text "rate=12") (text "rate, x") 0 4 /\
  run (text "rate=12") T_ident 0 4 = run (text "rate, x") T_ident 0 4.
Proof.
  assert (Hr : 0 <= 4) by lia.
  assert (H : agree_on (text "rate=12") (text "rate, x") 0 4).
  { intros j Hj.
    assert (Hc : j = 0 \/ j = 1 \/ j = 2 \/ j = 3) by lia.
    destruct Hc as [-> | [-> | [-> | ->]]]; reflexivity. }
  split; [exact Hr|]. split; [exact H|].
  exact (proj1 (terminals_read_only_the_range
                  (text "rate=12") (text "rate, x") 0 4 Hr H) T_ident).
Defined.

(** X19: on a valid range the fixed-array-read over [N >= 1] elements of
    [E >= 1] bytes reports success iff the range holds more than
    [(N - 1) * E] bytes, that is iff the read of the last element was begun,
    whether or not that element was read in full. *)
Theorem r_array_t_success_iff src (buf_ : list (list Z)) (E : nat) i1 i2 :
  i1 <= i2 -> (0 < E)%nat -> (0 < length buf_)%nat ->
  Forall (fun e => length e = E) buf_ ->
  matched (fst (r_array_t src buf_ i1 i2)) = true <->
  i1 + Z.of_nat ((length buf_ - 1) * E) < i2.
Proof. exact (r_array_t_matched src buf_ E i1 i2). Qed.

Lemma r_array_t_success_iff_witness :
  0 <= 3 /\ (0 < 2)%nat /\ (0 < length [[0; 0]; [0; 0]])%nat /\
  Forall (fun e => length e = 2%nat) [[0; 0]; [0; 0]] /\
  (matched (fst (r_array_t (load [1; 2; 3]) [[0; 0]; [0; 0]] 0 3)) = true <->
   0 + Z.of_nat ((length [[0; 0]; [0; 0]] - 1) * 2) < 3).
Proof.
  assert (Hr : 0 <= 3) by lia.
  assert (HE : (0 < 2)%nat) by lia.
  assert (HN : (0 < length [[0; 0]; [0; 0]])%nat) by (simpl; lia).
  assert (Hall : Forall (fun e => length e = 2%nat) [[0; 0]; [0; 0]])
    by (repeat constructor).
  split; [exact Hr|]. split; [exact HE|]. split; [exact HN|].
  split; [exact Hall|].
  exact (r_array_t_success_iff (load [1; 2; 3]) [[0; 0]; [0; 0]] 2 0 3
           Hr HE HN Hall).
Defined.
